(** * WindFetch: the fetch engine of [WindFetch.py], embedded and verified

    The development follows the source file top to bottom: the numeric cells,
    the exceptions a call may raise, 2-D arrays with their numpy primitives
    ([np.pad], slicing, [flatten(order="F")], [reshape(order="F")],
    [np.cumsum], boolean-mask indexing and assignment, [np.diff],
    [np.dstack]), then the methods of class [WaterBody], then the theorems.

    Numbers.  A float64 cell is either NaN or a number.  All numbers that the
    engine stores in a cell are integers (the codes -1 and 1, running counts,
    counts scaled by the resolution), on which float64 arithmetic is exact
    below 2^53; a cell is therefore an [option Z], with [None] for NaN and
    NaN-propagating arithmetic.  Resolutions are Python integers.  Bearings
    and the minor interval are Python integers in [minor_dir_list]; module
    [FloatBearings] holds the same function on float64 bearings. *)

From Stdlib Require Import ZArith List Bool Lia PeanoNat.
From Stdlib Require Floats.
Import ListNotations.

Local Open Scope Z_scope.

(** ** Cells *)

Module Cell.

Abbreviation fl := (option Z) (only parsing).

Definition nan : fl := None.
Definition of_int (z : Z) : fl := Some z.

Definition isnan (x : fl) : bool :=
  match x with None => true | Some _ => false end.

Definition lift2 (op : Z -> Z -> Z) (x y : fl) : fl :=
  match x, y with
  | Some a, Some b => Some (op a b)
  | _, _ => None
  end.

Definition fadd := lift2 Z.add.
Definition fsub := lift2 Z.sub.
Definition fmul := lift2 Z.mul.
Definition fneg (x : fl) : fl := option_map Z.opp x.

(** The two codes of a water mask. *)
Definition WATER : fl := Some (-1).
Definition NOT_WATER : fl := nan.

Definition encoded (c : fl) : Prop := c = WATER \/ c = NOT_WATER.

Definition is_water (c : fl) : bool := negb (isnan c).

End Cell.
Import Cell.

(** ** Exceptions *)

Inductive exn := ValueError | IndexError.

Inductive result (A : Type) :=
| Ok (a : A)
| Raise (e : exn).
Arguments Ok {A} a.
Arguments Raise {A} e.

Definition bind {A B} (m : result A) (k : A -> result B) : result B :=
  match m with
  | Ok a => k a
  | Raise e => Raise e
  end.

Notation "x <- m ;; k" := (bind m (fun x => k))
  (at level 61, m at next level, right associativity).

(** A loop that appends one computed item per element and stops at the first
    exception. *)
Fixpoint for_each {A B} (f : A -> result B) (l : list A) : result (list B) :=
  match l with
  | [] => Ok []
  | x :: l' => y <- f x ;; ys <- for_each f l' ;; Ok (y :: ys)
  end.

(** ** Python sequences *)

Section Sequences.
Context {A : Type}.

(** [l[start:stop]] with Python's treatment of negative and out-of-range
    bounds. *)
Definition clamp_index (n i : Z) : Z :=
  if i <? 0 then Z.max (i + n) 0 else Z.min i n.

Definition py_slice_bounds (n : nat) (start stop : Z) : nat * nat :=
  let lo := clamp_index (Z.of_nat n) start in
  let hi := clamp_index (Z.of_nat n) stop in
  (Z.to_nat lo, Z.to_nat (hi - lo)).

Definition py_slice (l : list A) (start stop : Z) : list A :=
  let '(lo, len) := py_slice_bounds (length l) start stop in
  firstn len (skipn lo l).

(** [l[i]] for a list: negative indices count from the end. *)
Definition py_index (l : list A) (i : Z) : result A :=
  let n := Z.of_nat (length l) in
  let j := if i <? 0 then i + n else i in
  if (j <? 0) || (n <=? j) then Raise IndexError
  else match nth_error l (Z.to_nat j) with
       | Some x => Ok x
       | None => Raise IndexError
       end.

(** [zip_cons r m] puts the elements of [r] in front of the rows of [m]. *)
Fixpoint zip_cons (r : list A) (m : list (list A)) : list (list A) :=
  match r, m with
  | x :: r', c :: m' => (x :: c) :: zip_cons r' m'
  | _, _ => []
  end.

(** Transposition of a matrix whose rows have length [w]. *)
Fixpoint transpose (w : nat) (m : list (list A)) : list (list A) :=
  match m with
  | [] => repeat [] w
  | r :: m' => zip_cons r (transpose w m')
  end.

(** [n] consecutive chunks of [k] elements. *)
Fixpoint chunks (k n : nat) (l : list A) : list (list A) :=
  match n with
  | O => []
  | S n' => firstn k l :: chunks k n' (skipn k l)
  end.

End Sequences.

(** [range(n)] and [range(0, n, step)] for a positive step. *)
Definition range (n : Z) : list Z := map Z.of_nat (seq 0 (Z.to_nat n)).

Definition range_step (n step : Z) : list Z :=
  map (fun k => Z.of_nat k * step) (seq 0 (Z.to_nat ((n + step - 1) / step))).

(** ** 2-D arrays

    An array carries its shape, so that arrays with no rows or no columns keep
    the other dimension, as numpy's do. *)

Record array2 (A : Type) := mk_array2 {
  nrows : nat;
  ncols : nat;
  rows : list (list A)
}.
Arguments mk_array2 {A}.
Arguments nrows {A}.
Arguments ncols {A}.
Arguments rows {A}.

Definition wf_rows {A} (r c : nat) (m : list (list A)) : Prop :=
  length m = r /\ Forall (fun row => length row = c) m.

Definition wf {A} (a : array2 A) : Prop := wf_rows (nrows a) (ncols a) (rows a).

Definition shape2 {A} (a : array2 A) : nat * nat := (nrows a, ncols a).

Section Array2.
Context {A : Type}.

Definition amap {B} (f : A -> B) (a : array2 A) : array2 B :=
  mk_array2 (nrows a) (ncols a) (map (map f) (rows a)).

(** Element-wise binary operation on two arrays of one shape. *)
Fixpoint zip_with {B C} (f : A -> B -> C) (l : list A) (l' : list B) : list C :=
  match l, l' with
  | x :: t, y :: t' => f x y :: zip_with f t t'
  | _, _ => []
  end.

(** [np.pad(array, pad_width=p, mode="constant", constant_values=fill)] *)
Definition np_pad (array : array2 A) (pad_width : Z) (fill : A)
  : result (array2 A) :=
  if pad_width <? 0 then Raise ValueError
  else
    let p := Z.to_nat pad_width in
    let c' := (p + ncols array + p)%nat in
    let border := repeat (repeat fill c') p in
    let body := map (fun r => repeat fill p ++ r ++ repeat fill p) (rows array) in
    Ok (mk_array2 (p + nrows array + p)%nat c' (border ++ body ++ border)).

(** [array[r0:r1, c0:c1]] *)
Definition slice2 (array : array2 A) (r0 r1 c0 c1 : Z) : array2 A :=
  mk_array2 (snd (py_slice_bounds (nrows array) r0 r1))
            (snd (py_slice_bounds (ncols array) c0 c1))
            (map (fun r => py_slice r c0 c1) (py_slice (rows array) r0 r1)).

(** [array.flatten(order="F")]: the columns one after the other. *)
Definition flatten_F (a : array2 A) : list A :=
  concat (transpose (ncols a) (rows a)).

(** [np.reshape(x, (r, c), order="F")] *)
Definition reshape_F (x : list A) (r c : nat) : array2 A :=
  mk_array2 r c (transpose r (chunks r c x)).

(** Cell [(i, j)], when it exists. *)
Definition cell_at (a : array2 A) (i j : nat) : option A :=
  match nth_error (rows a) i with
  | Some r => nth_error r j
  | None => None
  end.

(** Column [j], top to bottom. *)
Definition column (a : array2 A) (j : nat) : list A :=
  nth j (transpose (ncols a) (rows a)) [].

(** The [(N, 1)] array holding one column, and back. *)
Definition column_array (col : list A) : array2 A :=
  mk_array2 (length col) 1 (map (fun c => [c]) col).

End Array2.

Definition amul (a b : array2 fl) : array2 fl :=
  mk_array2 (nrows a) (ncols a) (zip_with (zip_with fmul) (rows a) (rows b)).

Definition amul_scalar (a : array2 fl) (s : fl) : array2 fl :=
  amap (fun x => fmul x s) a.

(** ** 1-D numpy primitives used by the kernel *)

(** [np.cumsum] of a boolean vector: an integer vector. *)
Fixpoint cumsum_bool_from (acc : Z) (l : list bool) : list Z :=
  match l with
  | [] => []
  | b :: l' => let acc' := acc + (if b then 1 else 0) in
               acc' :: cumsum_bool_from acc' l'
  end.

Definition cumsum_bool := cumsum_bool_from 0.

(** [np.cumsum] of a float vector; a NaN poisons every later sum. *)
Fixpoint cumsum_from (acc : fl) (l : list fl) : list fl :=
  match l with
  | [] => []
  | x :: l' => let acc' := fadd acc x in acc' :: cumsum_from acc' l'
  end.

Definition cumsum := cumsum_from (Some 0).

(** [c[n]] for a boolean mask [n]: the elements at the [True] positions. *)
Fixpoint bool_index {A} (c : list A) (n : list bool) : list A :=
  match c, n with
  | x :: c', b :: n' => if b then x :: bool_index c' n' else bool_index c' n'
  | _, _ => []
  end.

(** [np.diff] *)
Fixpoint diff (b : list fl) : list fl :=
  match b with
  | x :: (y :: _) as t => fsub y x :: diff t
  | _ => []
  end.

(** [v[n] = vals] for a boolean mask [n]: the [True] positions receive the
    values in order.  numpy requires as many values as [True] positions; the
    kernel always supplies that many ([kernel_values_length] below). *)
Fixpoint bool_assign {A} (v : list A) (n : list bool) (vals : list A) : list A :=
  match v, n with
  | x :: v', b :: n' =>
      if b then
        match vals with
        | y :: vals' => y :: bool_assign v' n' vals'
        | [] => x :: bool_assign v' n' []
        end
      else x :: bool_assign v' n' vals
  | _, _ => v
  end.

(** ** Class [WaterBody]: static methods *)

(** [WaterBody.padding] *)
Definition padding {A} (array : array2 A) (pad_width : Z) (fill_value : A)
           (inverse : bool) : result (array2 A) :=
  if negb inverse then np_pad array pad_width fill_value
  else Ok (slice2 array pad_width (- pad_width) pad_width (- pad_width)).

(** [WaterBody._fetch_length_vect] *)
Definition _fetch_length_vect (array : array2 fl) (resolution : Z) : array2 fl :=
  let w := amap (fun c => fmul c (Some (-1))) array in
  let v := flatten_F w in
  let n := map isnan v in
  let a := map negb n in
  let c := cumsum_bool a in
  let b := Some 0 :: map of_int (bool_index c n) in
  let d := diff b in
  let v' := bool_assign v n (map fneg d) in
  let x := cumsum v' in
  amul_scalar (amul (reshape_F x (nrows w) (ncols w)) w) (of_int resolution).

(** ** n-D arrays, as the constructor receives them

    The classification grid reaches [__init__] as an array of any number of
    dimensions: its shape and its cells in row-major order. *)

Record ndarray (A : Type) := mk_ndarray {
  shape : list nat;
  data : list A
}.
Arguments mk_ndarray {A}.
Arguments shape {A}.
Arguments data {A}.

Definition nd_wf {A} (g : ndarray A) : Prop :=
  length (data g) = fold_right Nat.mul 1%nat (shape g).

Definition nd_map {A B} (f : A -> B) (g : ndarray A) : ndarray B :=
  mk_ndarray (shape g) (map f (data g)).

(** The 2-D view of row-major cells. *)
Definition as_array2 {A} (nrow ncol : nat) (cells : list A) : array2 A :=
  mk_array2 nrow ncol (chunks ncol nrow cells).

(** Cell [(i, j)] of a 2-D grid given in row-major order. *)
Definition grid_at {A} (g : ndarray A) (i j : nat) : option A :=
  match shape g with
  | [_; ncol] => nth_error (data g) (i * ncol + j)
  | _ => None
  end.

(** ** 3-D arrays and [np.dstack] *)

Record array3 (A : Type) := mk_array3 {
  dim0 : nat;
  dim1 : nat;
  dim2 : nat;
  cells3 : list (list (list A))
}.
Arguments mk_array3 {A}.
Arguments dim0 {A}.
Arguments dim1 {A}.
Arguments dim2 {A}.
Arguments cells3 {A}.

Definition shape3 {A} (s : array3 A) : nat * nat * nat := (dim0 s, dim1 s, dim2 s).

Section Stacking.
Context {A : Type}.

Definition same_shape (r c : nat) (arrays : list (array2 A)) : bool :=
  forallb (fun b => Nat.eqb (nrows b) r && Nat.eqb (ncols b) c) arrays.

(** For every cell position, the values of that cell across the arrays, in
    the order of the arrays. *)
Definition across (r c : nat) (arrays : list (array2 A)) : list (list (list A)) :=
  map (transpose c) (transpose r (map rows arrays)).

(** [np.dstack(arrays)] for 2-D arrays. *)
Definition np_dstack (arrays : list (array2 A)) : result (array3 A) :=
  match arrays with
  | [] => Raise ValueError
  | a0 :: _ =>
      let r := nrows a0 in
      let c := ncols a0 in
      if same_shape r c arrays
      then Ok (mk_array3 r c (length arrays) (across r c arrays))
      else Raise ValueError
  end.

(** Band [k] of a stack: [stack[:, :, k]]. *)
Definition band (s : array3 A) (k : nat) : list (list (option A)) :=
  map (map (fun l => nth_error l k)) (cells3 s).

End Stacking.

(** ** Class [WaterBody] *)

Record WaterBody := mk_WaterBody {
  water_id : Z;
  landwater : array2 fl;
  resolution : Z;
  estimated_pad : Z
}.

(** [math.ceil(np.sqrt(s))] for an integer [s >= 0], in exact arithmetic.
    The source takes the root in float64: the two agree while [s < 2^50]
    (theorems about the value of the margin carry that bound), and [np.sqrt]
    raises once [s] no longer fits 64 bits. *)
Definition ceil_sqrt (s : Z) : Z :=
  let q := Z.sqrt s in
  if q * q =? s then q else q + 1.

(** [WaterBody.__init__], for a resolution given as a Python integer.  The
    second component is the state of the argument [landwater] after the call:
    the constructor only reads it ([==] and [np.where] allocate their
    results).  The margin is computed with [ceil_sqrt]; see there for the
    range in which this is the source's float64 computation. *)
Definition init (landwater : ndarray Z) (water_id resolution : Z)
  : result WaterBody * ndarray Z :=
  let mask := nd_map (fun c => if c =? water_id then of_int (-1) else nan) landwater in
  (match shape mask with
   | [nrow; ncol] =>
       let xlen := resolution * Z.of_nat ncol in
       let ylen := resolution * Z.of_nat nrow in
       let padwidth := ceil_sqrt (xlen ^ 2 + ylen ^ 2) - Z.min xlen ylen in
       Ok (mk_WaterBody water_id (as_array2 nrow ncol (data mask)) resolution padwidth)
   | _ => Raise ValueError
   end,
   landwater).

(** The argument [directions] of [fetch]: a list, or a single bearing. *)
Inductive directions_arg :=
| Dlist (l : list Z)
| Dscalar (d : Z).

(** The local function [minor_dir_list] of [fetch], for bearings and a minor
    interval given as Python integers (exact arithmetic, [%] is [Z.modulo]).
    For float64 bearings see [FloatBearings.minor_dir_list]. *)
Definition minor_dir_list (directions : list Z) (minor_interval minor_directions : Z)
  : result (list Z) :=
  let minor_seq := map (fun i => i * minor_interval) (range minor_directions) in
  minor_seq_mid <- py_index minor_seq (Z.of_nat (length minor_seq) / 2) ;;
  Ok (flat_map
        (fun d => map (fun i => (d + (i - minor_seq_mid)) mod 360) minor_seq)
        directions).

(** The local generator [divide_chunks] of [fetch], run to its end. *)
Definition divide_chunks {A} (l : list A) (n : Z) : result (list (list A)) :=
  if n =? 0 then Raise ValueError
  else if n <? 0 then Ok []
  else Ok (map (fun i => py_slice l i (i + n)) (range_step (Z.of_nat (length l)) n)).

(** ** Bearings given as floats

    [minor_dir_list] on float64 directions and interval: the products
    [i * minor_interval], the difference and the sum are float64 operations,
    and [% 360] is Python's float remainder (C's exact [fmod], moved into the
    range of the divisor's sign by one float addition). *)

Module FloatBearings.
Import PrimFloat SpecFloat FloatOps.

(** Conversion of a Python integer to float64 (round to nearest even). *)
Definition float_of_int (z : Z) : float :=
  SF2Prim (binary_normalize prec emax z 0 false).

(** C's [fmod]: the exact remainder of the truncated division, with the sign
    of [x]. *)
Definition fmod (x y : float) : float :=
  match Prim2SF x, Prim2SF y with
  | S754_finite sx mx ex, S754_finite _ my ey =>
      let e := Z.min ex ey in
      let X := Z.pos mx * 2 ^ (ex - e) in
      let Y := Z.pos my * 2 ^ (ey - e) in
      let R := X mod Y in
      SF2Prim (binary_normalize prec emax (if sx then - R else R) e sx)
  | S754_zero _, S754_finite _ _ _ => x
  | S754_zero _, S754_infinity _ => x
  | S754_finite _ _ _, S754_infinity _ => x
  | _, _ => nan
  end.

(** [x % 360] for a float [x]. *)
Definition mod_360 (x : float) : float :=
  let m := fmod x (float_of_int 360) in
  if PrimFloat.eqb m zero then zero
  else if PrimFloat.ltb m zero then PrimFloat.add m (float_of_int 360)
       else m.

Definition minor_dir_list (directions : list float) (minor_interval : float)
           (minor_directions : Z) : result (list float) :=
  let minor_seq :=
    map (fun i => PrimFloat.mul (float_of_int i) minor_interval)
        (range minor_directions) in
  minor_seq_mid <- py_index minor_seq (Z.of_nat (length minor_seq) / 2) ;;
  Ok (flat_map
        (fun d =>
           map (fun i => mod_360 (PrimFloat.add d (PrimFloat.sub i minor_seq_mid)))
               minor_seq)
        directions).

(** The floats nearest to 0.2 and 0.1. *)
Definition two_tenths : float := 0x1.999999999999ap-3%float.
Definition one_tenth : float := 0x1.999999999999ap-4%float.

End FloatBearings.

Section Engine.

(** [scipy.ndimage.rotate(a, angle=angle, reshape=False, mode="constant",
    cval=nan, order=0)] and the mean of a vector of floats ([np.mean]) are
    library routines on floating-point data; the engine is parametric in
    them. *)
Variable rotate : array2 fl -> Z -> array2 fl.
Variable fmean : list fl -> fl.

(** [np.mean(np.stack(chunk), axis=0)] *)
Definition mean_axis0 (chunk : list (array2 fl)) : result (array2 fl) :=
  match chunk with
  | [] => Raise ValueError
  | a0 :: _ =>
      let r := nrows a0 in
      let c := ncols a0 in
      if same_shape r c chunk
      then Ok (mk_array2 r c (map (map fmean) (across r c chunk)))
      else Raise ValueError
  end.

(** [WaterBody._fetch_single_dir] *)
Definition _fetch_single_dir (self : WaterBody) (angle : Z) : result (array2 fl) :=
  array_pad <- padding (landwater self) (estimated_pad self) nan false ;;
  let array_rot := rotate array_pad angle in
  let array_fetch := _fetch_length_vect array_rot (resolution self) in
  let array_inv_rot := rotate array_fetch (360 - angle) in
  padding array_inv_rot (estimated_pad self) (of_int (- resolution self)) true.

(** The branch of [fetch] without minor directions. *)
Definition fetch_plain (self : WaterBody) (directions : list Z)
  : result (list (array2 fl)) :=
  for_each (_fetch_single_dir self) directions.

(** The branch of [fetch] with minor directions. *)
Definition fetch_minor (self : WaterBody) (directions : list Z)
           (minor_interval minor_directions : Z) : result (list (array2 fl)) :=
  all_directions <- minor_dir_list directions minor_interval minor_directions ;;
  all_dir_arrays <- for_each (_fetch_single_dir self) all_directions ;;
  groups <- divide_chunks all_dir_arrays minor_directions ;;
  for_each mean_axis0 groups.

(** [WaterBody.fetch].  An omitted optional argument is [None]; the test
    [if minor_interval and minor_directions] holds when both are given and
    neither is zero. *)
Definition fetch (self : WaterBody) (directions : directions_arg)
           (minor_directions minor_interval : option Z) : result (array3 fl) :=
  let directions :=
    match directions with Dlist l => l | Dscalar d => [d] end in
  dir_arrays <-
    match minor_interval, minor_directions with
    | Some mi, Some md =>
        if negb (mi =? 0) && negb (md =? 0)
        then fetch_minor self directions mi md
        else fetch_plain self directions
    | _, _ => fetch_plain self directions
    end ;;
  np_dstack dir_arrays.

End Engine.

(** ** Descriptions the theorems refer to *)

Definition encoded_array (a : array2 fl) : Prop :=
  Forall (Forall encoded) (rows a).

(** The chain of [_fetch_length_vect] from the flattened [v] to [x]. *)
Definition scan (v : list fl) : list fl :=
  let n := map isnan v in
  let a := map negb n in
  let c := cumsum_bool a in
  let b := Some 0 :: map of_int (bool_index c n) in
  let d := diff b in
  cumsum (bool_assign v n (map fneg d)).

(** Running count of water cells since the last NaN, started at [acc]. *)
Definition step_count (acc : Z) (c : fl) : Z :=
  if isnan c then 0 else acc + 1.

Fixpoint counts (acc : Z) (v : list fl) : list Z :=
  match v with
  | [] => []
  | c :: v' => step_count acc c :: counts (step_count acc c) v'
  end.

Fixpoint take_while {A} (p : A -> bool) (l : list A) : list A :=
  match l with
  | x :: l' => if p x then x :: take_while p l' else []
  | [] => []
  end.

(** The number of consecutive WATER cells that end at cell [i] of a column:
    from the most recent NOT_WATER cell above [i], or from the top of the
    column, down to and including cell [i]. *)
Definition water_run (col : list fl) (i : nat) : nat :=
  length (take_while is_water (rev (firstn (S i) col))).

(** The fetch of a column as the specification words it: [k * r] on a WATER
    cell, [k] its water run, and NaN on a NOT_WATER cell. *)
Definition column_fetch (col : list fl) (r : Z) : list fl :=
  map (fun i => if is_water (nth i col nan)
                then of_int (Z.of_nat (water_run col i) * r)
                else nan)
      (seq 0 (length col)).

(** The seam between two neighbouring columns is closed when the bottom cell
    of the left one or the top cell of the right one is NOT_WATER. *)
Definition seam_closed (left right : list fl) : Prop :=
  last left nan = NOT_WATER \/ hd nan right = NOT_WATER.

Definition seams_closed (a : array2 fl) : Prop :=
  forall j, (S j < ncols a)%nat -> seam_closed (column a j) (column a (S j)).

(** The flattened vector after [array * -1]: ones and NaNs. *)
Definition ones (v : list fl) : Prop :=
  Forall (fun c => c = Some 1 \/ c = None) v.

Definition neg1 (c : fl) : fl := fmul c (Some (-1)).

(** Fetch of a column whose count starts at [acc]: what the kernel leaves in
    the column's cells. *)
Definition ramp (acc : Z) (col : list fl) (r : Z) : list fl :=
  map (fun x => fmul x (of_int r))
      (zip_with fmul (map Some (counts acc col)) (map neg1 col)).

(** Length of the water run at the head of a list. *)
Definition trail (l : list fl) : nat := length (take_while is_water l).

(** The count with which a column ends. *)
Definition final_count (acc : Z) (col : list fl) : Z :=
  fold_left step_count col acc.

Fixpoint seams_list (cols : list (list fl)) : Prop :=
  match cols with
  | c1 :: (c2 :: _) as rest => seam_closed c1 c2 /\ seams_list rest
  | _ => True
  end.

(** The directions a call of [fetch] asks for. *)
Definition requested (directions : directions_arg) : list Z :=
  match directions with Dlist l => l | Dscalar d => [d] end.

(** A stand-in for the rotation routine where a concrete call is evaluated:
    the array comes back as it is (a rotation by 0 or 360 degrees). *)
Definition rotate_none (a : array2 fl) (angle : Z) : array2 fl := a.

(** A stand-in for the mean of a vector of integral floats where a concrete
    call is evaluated: NaN if a member is NaN, else the floored mean. *)
Definition mean_floor (l : list fl) : fl :=
  lift2 Z.div (fold_right fadd (Some 0) l) (Some (Z.of_nat (length l))).

(** The padding margin [__init__] computes for a grid of [R] rows and [C]
    columns. *)
Definition pad_of (res : Z) (R C : nat) : Z :=
  let xlen := res * Z.of_nat C in
  let ylen := res * Z.of_nat R in
  ceil_sqrt (xlen ^ 2 + ylen ^ 2) - Z.min xlen ylen.

(** A well-formed array of shape [(r, c)]. *)
Definition shaped {A} (r c : nat) (b : array2 A) : Prop :=
  wf b /\ shape2 b = (r, c).

(** The value of a call that returns. *)
Definition unwrap {A} (default : A) (m : result A) : A :=
  match m with Ok a => a | Raise _ => default end.

(** The minor parameters [(minor_interval, minor_directions)] when the test
    [if minor_interval and minor_directions] of [fetch] holds. *)
Definition minor_active (md mi : option Z) : option (Z * Z) :=
  match mi, md with
  | Some i, Some m =>
      if negb (i =? 0) && negb (m =? 0) then Some (i, m) else None
  | _, _ => None
  end.

(** What the band of one requested direction holds: its per-direction fetch
    array or, with minor directions, the mean over the arrays of its
    cluster. *)
Definition band_for (rotate : array2 fl -> Z -> array2 fl)
           (fmean : list fl -> fl) (self : WaterBody) (md mi : option Z)
           (d : Z) : result (array2 fl) :=
  match minor_active md mi with
  | Some (i, m) =>
      cluster <- minor_dir_list [d] i m ;;
      arrays <- for_each (_fetch_single_dir rotate self) cluster ;;
      mean_axis0 fmean arrays
  | None => _fetch_single_dir rotate self d
  end.

(** A call of [fetch] on the engine built from a grid returns a stack of
    shape [(R, C, N)] whose band [k] holds the array of the [k]-th requested
    direction. *)
Definition fetch_gives (rotate : array2 fl -> Z -> array2 fl)
           (fmean : list fl -> fl) (grid : ndarray Z) (label res : Z)
           (directions : directions_arg) (md mi : option Z)
           (R C N : nat) : Prop :=
  exists wb stack,
    fst (init grid label res) = Ok wb /\
    fetch rotate fmean wb directions md mi = Ok stack /\
    shape3 stack = (R, C, N) /\
    forall k d,
      nth_error (requested directions) k = Some d ->
      exists b,
        band_for rotate fmean wb md mi d = Ok b /\
        band stack k = map (map Some) (rows b).

(** Columns [0 .. j] of an array laid end to end, top to bottom. *)
Definition columns_upto {A} (a : array2 A) (j : nat) : list A :=
  concat (firstn (S j) (transpose (ncols a) (rows a))).

(** The squared diagonal [xlen^2 + ylen^2] of [__init__]. *)
Definition squared_diagonal (res : Z) (R C : nat) : Z :=
  (res * Z.of_nat C) ^ 2 + (res * Z.of_nat R) ^ 2.

(** * Properties *)

(** ** Slices and padding *)

Section SliceFacts.
Context {A : Type}.

Lemma py_slice_bounds_pad (n : nat) (p : Z) :
  1 <= p ->
  py_slice_bounds (Z.to_nat p + n + Z.to_nat p) p (- p) = (Z.to_nat p, n).
Proof.
  intros Hp. unfold py_slice_bounds, clamp_index.
  replace (p <? 0) with false by (symmetry; apply Z.ltb_ge; lia).
  replace (- p <? 0) with true by (symmetry; apply Z.ltb_lt; lia).
  f_equal; lia.
Qed.

Lemma py_slice_bounds_too_large (n : nat) (p : Z) :
  Z.of_nat n <= 2 * p ->
  snd (py_slice_bounds n p (- p)) = 0%nat.
Proof.
  intros Hp. unfold py_slice_bounds, clamp_index. cbn [snd].
  destruct (p <? 0) eqn:E1; destruct (- p <? 0) eqn:E2;
    try apply Z.ltb_lt in E1; try apply Z.ltb_ge in E1;
    try apply Z.ltb_lt in E2; try apply Z.ltb_ge in E2; lia.
Qed.

Lemma py_slice_middle (l1 l l2 : list A) (p : Z) :
  1 <= p ->
  length l1 = Z.to_nat p ->
  length l2 = Z.to_nat p ->
  py_slice (l1 ++ l ++ l2) p (- p) = l.
Proof.
  intros Hp H1 H2. unfold py_slice.
  replace (length (l1 ++ l ++ l2))
    with (Z.to_nat p + length l + Z.to_nat p)%nat
    by (rewrite !length_app; lia).
  rewrite py_slice_bounds_pad by assumption.
  rewrite skipn_app, H1, Nat.sub_diag.
  rewrite skipn_all2 by lia. cbn [skipn app].
  rewrite firstn_app, Nat.sub_diag, firstn_all. cbn [firstn].
  apply app_nil_r.
Qed.

Lemma py_slice_too_large (l : list A) (p : Z) :
  Z.of_nat (length l) <= 2 * p ->
  py_slice l p (- p) = [].
Proof.
  intros Hp. unfold py_slice.
  pose proof (py_slice_bounds_too_large (length l) p Hp) as Hb.
  destruct (py_slice_bounds (length l) p (- p)) as [lo len].
  cbn [snd] in Hb. subst len. reflexivity.
Qed.

Lemma in_firstn_skipn (x : A) (lo len : nat) (l : list A) :
  In x (firstn len (skipn lo l)) -> In x l.
Proof.
  intros Hin.
  rewrite <- (firstn_skipn lo l). apply in_or_app. right.
  rewrite <- (firstn_skipn len (skipn lo l)). apply in_or_app. now left.
Qed.

Lemma map_id_on (f : A -> A) (l : list A) :
  Forall (fun x => f x = x) l -> map f l = l.
Proof.
  induction 1 as [|x l Hx _ IH]; cbn; [reflexivity|].
  now rewrite Hx, IH.
Qed.

Lemma concat_all_nil (m : list (list A)) :
  Forall (fun r => r = []) m -> concat m = [].
Proof.
  induction 1 as [|r m Hr _ IH]; cbn; [reflexivity|].
  now rewrite Hr, IH.
Qed.

End SliceFacts.

(** C3.  Padding an array by [pad_width >= 1] with any fill value and then
    unpadding with the same [pad_width] (and any fill value) returns the
    original array: same shape, same cells, NaN cells included.  This holds for
    every well-formed 2-D array and every [pad_width >= 1], hence in particular
    for those not exceeding half of a dimension. *)
Theorem pad_unpad_identity :
  forall (A : Type) (array : array2 A) (pad_width : Z) (fill any_fill : A),
    wf array ->
    1 <= pad_width ->
    (padded <- padding array pad_width fill false ;;
     padding padded pad_width any_fill true) = Ok array.
Proof.
  intros A [r c m] p fill any_fill [Hlen Hrows] Hp. cbn in Hlen, Hrows.
  unfold padding, np_pad. cbn [negb].
  replace (p <? 0) with false by (symmetry; apply Z.ltb_ge; lia).
  cbn [bind nrows ncols rows]. unfold slice2. cbn [nrows ncols rows].
  rewrite !py_slice_bounds_pad by assumption. cbn [snd].
  rewrite py_slice_middle;
    [| assumption | now rewrite repeat_length | now rewrite repeat_length].
  rewrite map_map. rewrite map_id_on; [reflexivity|].
  apply Forall_forall. intros row _.
  apply py_slice_middle; [assumption | | ]; now rewrite repeat_length.
Qed.

Lemma pad_unpad_identity_witness :
  let a := mk_array2 2 3 [[WATER; NOT_WATER; WATER]; [WATER; WATER; NOT_WATER]] in
  (padded <- padding a 2 nan false ;; padding padded 2 (Some 7) true) = Ok a.
Proof.
  intro a. apply (pad_unpad_identity fl a 2 nan (Some 7)).
  - split; [reflexivity | repeat constructor].
  - lia.
Defined.

(** C7 (as stated, refuted).  Unpadding a 2-by-2 array with [pad_width = 1],
    which is half of both dimensions, raises nothing: the call returns an
    array with no cells. *)
Lemma unpad_half_not_rejected :
  padding (mk_array2 2 2 [[WATER; NOT_WATER]; [WATER; WATER]]) 1 nan true
  = Ok (mk_array2 0 0 []).
Proof. reflexivity. Qed.

(** C7 (amended).  [padding] checks nothing: for a [pad_width] of at least
    half of either dimension of the array being unpadded, the inverse path
    raises no error and returns an array without cells, of zero rows or zero
    columns. *)
Theorem unpad_too_large_returns_empty :
  forall (A : Type) (array : array2 A) (pad_width : Z) (fill : A),
    wf array ->
    Z.of_nat (nrows array) <= 2 * pad_width \/
    Z.of_nat (ncols array) <= 2 * pad_width ->
    exists out,
      padding array pad_width fill true = Ok out /\
      (nrows out = 0%nat \/ ncols out = 0%nat) /\
      concat (rows out) = [].
Proof.
  intros A [r c m] p fill [Hlen Hrows] Hbig. cbn in Hlen, Hrows, Hbig.
  eexists. split; [reflexivity|].
  unfold slice2. cbn [nrows ncols rows].
  destruct Hbig as [Hr | Hc].
  - split; [left; now apply py_slice_bounds_too_large|].
    rewrite (py_slice_too_large m) by (rewrite Hlen; exact Hr).
    reflexivity.
  - split; [right; now apply py_slice_bounds_too_large|].
    apply concat_all_nil, Forall_map.
    assert (Hsub : Forall (fun row => length row = c) (py_slice m p (- p))).
    { unfold py_slice. destruct (py_slice_bounds (length m) p (- p)) as [lo len].
      apply Forall_forall. intros row Hin.
      apply (proj1 (Forall_forall _ _) Hrows).
      eapply in_firstn_skipn. exact Hin. }
    eapply Forall_impl; [|exact Hsub].
    intros row Hrow. cbn beta in Hrow.
    apply py_slice_too_large. rewrite Hrow. exact Hc.
Qed.

Lemma unpad_too_large_returns_empty_witness :
  exists out,
    padding (mk_array2 2 3 [[1; 2; 3]; [4; 5; 6]]) 1 0 true = Ok out /\
    (nrows out = 0%nat \/ ncols out = 0%nat) /\
    concat (rows out) = [].
Proof.
  apply (unpad_too_large_returns_empty Z (mk_array2 2 3 [[1; 2; 3]; [4; 5; 6]]) 1 0).
  - split; [reflexivity | repeat constructor].
  - left. cbn. lia.
Defined.

(** C10.  On the inverse path the fill value is ignored: unpadding gives the
    same result for any two fill values, so the [-resolution] that
    [_fetch_single_dir] passes when it unpads a scan result reaches no cell of
    the array it returns (any other fill gives the same array). *)
Theorem unpad_ignores_fill :
  (forall (A : Type) (array : array2 A) (pad_width : Z) (f1 f2 : A),
      padding array pad_width f1 true = padding array pad_width f2 true) /\
  (forall rotate (self : WaterBody) (angle : Z) (fill : fl),
      _fetch_single_dir rotate self angle =
      (array_pad <- padding (landwater self) (estimated_pad self) nan false ;;
       padding
         (rotate (_fetch_length_vect (rotate array_pad angle) (resolution self))
                 (360 - angle))
         (estimated_pad self) fill true)).
Proof.
  split.
  - intros A array p f1 f2. reflexivity.
  - intros rotate self angle fill. reflexivity.
Qed.

(** ** Matrices as lists of rows *)

Section MatrixFacts.
Context {A : Type}.

Lemma zip_cons_length (r : list A) (m : list (list A)) :
  length r = length m -> length (zip_cons r m) = length r.
Proof.
  revert m. induction r as [|x r IH]; intros [|c m] H; cbn in *;
    try discriminate; [reflexivity|].
  f_equal. apply IH. lia.
Qed.

Lemma zip_cons_rows (r : list A) (m : list (list A)) (h : nat) :
  Forall (fun c => length c = h) m ->
  Forall (fun c => length c = S h) (zip_cons r m).
Proof.
  revert m. induction r as [|x r IH]; intros [|c m] H; cbn;
    try constructor.
  - cbn. f_equal. now inversion H.
  - apply IH. now inversion H.
Qed.

Lemma repeat_nil_rows (w : nat) :
  Forall (fun c : list A => length c = 0%nat) (repeat [] w).
Proof. induction w; cbn; constructor; auto. Qed.

Lemma transpose_wf (r c : nat) (m : list (list A)) :
  wf_rows r c m -> wf_rows c r (transpose c m).
Proof.
  revert r. induction m as [|row m IH]; intros r [Hlen Hrows]; cbn in *.
  - subst r. split; [apply repeat_length | apply repeat_nil_rows].
  - destruct r as [|r]; [discriminate|].
    inversion Hrows as [|? ? Hrow Hrest]; subst.
    destruct (IH r) as [Hl Hr]; [split; [lia | assumption]|].
    split.
    + rewrite zip_cons_length; [reflexivity | now rewrite Hl].
    + now apply zip_cons_rows.
Qed.

Lemma transpose_zip_cons (h : nat) (r : list A) (m : list (list A)) :
  length r = length m ->
  transpose (S h) (zip_cons r m) = r :: transpose h m.
Proof.
  revert m. induction r as [|x r IH]; intros [|c m] H; cbn in *;
    try discriminate; [reflexivity|].
  rewrite IH by lia. reflexivity.
Qed.

Lemma transpose_repeat_nil (w : nat) :
  transpose 0 (repeat ([] : list A) w) = [].
Proof. destruct w; reflexivity. Qed.

Lemma transpose_involutive (r c : nat) (m : list (list A)) :
  wf_rows r c m -> transpose r (transpose c m) = m.
Proof.
  revert r. induction m as [|row m IH]; intros r [Hlen Hrows]; cbn in *.
  - subst r. apply transpose_repeat_nil.
  - destruct r as [|r]; [discriminate|].
    inversion Hrows as [|? ? Hrow Hrest]; subst.
    assert (Hwf : wf_rows r (length row) m) by (split; [lia | assumption]).
    rewrite transpose_zip_cons.
    + f_equal. now apply IH.
    + symmetry. apply (transpose_wf _ _ _ Hwf).
Qed.

Lemma zip_cons_repeat_nil (l : list A) (n : nat) :
  (length l <= n)%nat ->
  zip_cons l (repeat [] n) = map (fun c => [c]) l.
Proof.
  revert n. induction l as [|x l IH]; intros [|n] H; cbn in *;
    try reflexivity; [lia|].
  f_equal. apply IH. lia.
Qed.

Lemma transpose_single_column (l : list A) :
  transpose 1 (map (fun c => [c]) l) = [l].
Proof.
  induction l as [|x l IH]; cbn; [reflexivity|].
  rewrite IH. reflexivity.
Qed.

Lemma chunks_concat (k n : nat) (cols : list (list A)) :
  wf_rows n k cols -> chunks k n (concat cols) = cols.
Proof.
  revert n. induction cols as [|c cols IH]; intros n [Hlen Hrows]; cbn in *.
  - now subst n.
  - destruct n as [|n]; [discriminate|].
    inversion Hrows as [|? ? Hc Hrest]; subst. cbn.
    rewrite firstn_app, Nat.sub_diag, firstn_all. cbn [firstn].
    rewrite app_nil_r.
    rewrite skipn_app, Nat.sub_diag, skipn_all. cbn [skipn app].
    f_equal. apply IH. split; [lia | assumption].
Qed.

Lemma chunks_wf (k n : nat) (x : list A) :
  length x = (n * k)%nat -> wf_rows n k (chunks k n x).
Proof.
  revert x. induction n as [|n IH]; intros x Hx; cbn.
  - split; [reflexivity | constructor].
  - destruct (IH (skipn k x)) as [Hl Hr].
    { rewrite length_skipn. lia. }
    split; [cbn; now rewrite Hl|].
    constructor; [|assumption].
    rewrite length_firstn. lia.
Qed.

Lemma concat_length_wf (r c : nat) (m : list (list A)) :
  wf_rows r c m -> length (concat m) = (r * c)%nat.
Proof.
  revert r. induction m as [|row m IH]; intros r [Hlen Hrows]; cbn in *.
  - now subst r.
  - destruct r as [|r]; [discriminate|].
    inversion Hrows; subst. rewrite length_app.
    rewrite (IH r) by (split; [lia | assumption]). lia.
Qed.

End MatrixFacts.

Section MatrixMaps.
Context {A B C : Type}.

Lemma zip_cons_map (f : A -> B) (r : list A) (m : list (list A)) :
  zip_cons (map f r) (map (map f) m) = map (map f) (zip_cons r m).
Proof.
  revert m. induction r as [|x r IH]; intros [|c m]; cbn; try reflexivity.
  now rewrite IH.
Qed.

Lemma transpose_map (f : A -> B) (w : nat) (m : list (list A)) :
  transpose w (map (map f) m) = map (map f) (transpose w m).
Proof.
  induction m as [|r m IH]; cbn.
  - induction w; cbn; [reflexivity | now f_equal].
  - rewrite IH. apply zip_cons_map.
Qed.

Lemma zip_cons_zip_with (f : A -> B -> C) (r1 : list A) (r2 : list B)
      (m1 : list (list A)) (m2 : list (list B)) :
  zip_with (zip_with f) (zip_cons r1 m1) (zip_cons r2 m2)
  = zip_cons (zip_with f r1 r2) (zip_with (zip_with f) m1 m2).
Proof.
  revert r2 m1 m2.
  induction r1 as [|x r1 IH]; intros [|y r2] [|c1 m1] [|c2 m2]; cbn;
    try reflexivity.
  now rewrite IH.
Qed.

Lemma transpose_zip_with (f : A -> B -> C) (w : nat)
      (m1 : list (list A)) (m2 : list (list B)) :
  length m1 = length m2 ->
  transpose w (zip_with (zip_with f) m1 m2)
  = zip_with (zip_with f) (transpose w m1) (transpose w m2).
Proof.
  revert m2. induction m1 as [|r1 m1 IH]; intros [|r2 m2] H; cbn in *;
    try discriminate.
  - induction w; cbn; [reflexivity | now f_equal].
  - rewrite IH by lia. symmetry. apply zip_cons_zip_with.
Qed.

Lemma zip_with_length (f : A -> B -> C) (l : list A) (l' : list B) :
  length l = length l' -> length (zip_with f l l') = length l.
Proof.
  revert l'. induction l as [|x l IH]; intros [|y l'] H; cbn in *;
    try discriminate; [reflexivity|].
  f_equal. apply IH. lia.
Qed.

End MatrixMaps.

(** ** The fetch kernel *)

Lemma scan_counts_from (v : list fl) :
  ones v ->
  forall T B X, X = T - B ->
    cumsum_from (Some X)
      (bool_assign v (map isnan v)
         (map fneg
            (diff (Some B ::
                   map of_int
                     (bool_index (cumsum_bool_from T (map negb (map isnan v)))
                                 (map isnan v))))))
    = map Some (counts X v).
Proof.
  induction 1 as [|c v Hc _ IH]; intros T B X HX; [reflexivity|].
  destruct Hc as [-> | ->]; cbn.
  - f_equal. apply IH. lia.
  - unfold step_count. cbn.
    replace (X + - (T + 0 - B)) with 0 by lia.
    f_equal. apply IH. lia.
Qed.

Lemma scan_counts (v : list fl) :
  ones v -> scan v = map Some (counts 0 v).
Proof.
  intros Hv. unfold scan, cumsum, cumsum_bool.
  now apply (scan_counts_from v Hv 0 0 0).
Qed.

(** The vector of values handed to [v[n] = -d] has one value per NaN. *)
Lemma kernel_values_length (v : list fl) :
  let n := map isnan v in
  length (map fneg (diff (Some 0 :: map of_int
            (bool_index (cumsum_bool (map negb n)) n))))
  = length (filter (fun b => b) n).
Proof.
  cbn zeta. unfold cumsum_bool. generalize 0 at 2. generalize (Some 0).
  induction v as [|c v IH]; intros b T; [reflexivity|].
  destruct c; cbn.
  - apply IH.
  - f_equal. apply IH.
Qed.

Lemma neg1_encoded (c : fl) :
  encoded c -> (neg1 c = Some 1 \/ neg1 c = None) /\ isnan (neg1 c) = isnan c.
Proof. intros [-> | ->]; cbn; auto. Qed.

Lemma ones_neg1 (col : list fl) :
  Forall encoded col -> ones (map neg1 col).
Proof.
  intros H. apply Forall_map.
  eapply Forall_impl; [|exact H].
  intros c Hc. now apply neg1_encoded.
Qed.

Lemma counts_neg1 (col : list fl) (acc : Z) :
  Forall encoded col -> counts acc (map neg1 col) = counts acc col.
Proof.
  intros H. revert acc. induction H as [|c col Hc _ IH]; intros acc;
    [reflexivity|].
  cbn. unfold step_count.
  rewrite (proj2 (neg1_encoded c Hc)). now rewrite IH.
Qed.

Lemma counts_length (v : list fl) (acc : Z) : length (counts acc v) = length v.
Proof. revert acc. induction v; intros; cbn; auto. Qed.

Lemma zip_with_singletons {A B C} (f : A -> B -> C) (l : list A) (l' : list B) :
  zip_with (zip_with f) (map (fun c => [c]) l) (map (fun c => [c]) l')
  = map (fun c => [c]) (zip_with f l l').
Proof.
  revert l'. induction l as [|x l IH]; intros [|y l']; cbn; try reflexivity.
  now rewrite IH.
Qed.

Lemma kernel_single_column (col : list fl) (r : Z) :
  Forall encoded col ->
  _fetch_length_vect (column_array col) r = column_array (ramp 0 col r).
Proof.
  intros Henc.
  unfold _fetch_length_vect. fold neg1. cbv zeta.
  change (cumsum (bool_assign ?v (map isnan ?v)
            (map fneg (diff (Some 0 :: map of_int
               (bool_index (cumsum_bool (map negb (map isnan ?v)))
                           (map isnan ?v)))))))
    with (scan v).
  unfold column_array, amap, flatten_F, reshape_F, amul, amul_scalar.
  cbn [nrows ncols rows].
  rewrite (map_map (fun c => [c]) (map neg1)).
  change (map (fun x => map neg1 [x]) col)
    with (map (fun x => [neg1 x]) col).
  rewrite <- (map_map neg1 (fun c => [c])).
  rewrite transpose_single_column. cbn [concat]. rewrite app_nil_r.
  rewrite scan_counts by now apply ones_neg1.
  rewrite counts_neg1 by assumption.
  cbn [chunks transpose].
  rewrite firstn_all2 by (rewrite length_map, counts_length; lia).
  rewrite zip_cons_repeat_nil by (rewrite length_map, counts_length; lia).
  unfold amap. cbn [nrows ncols rows].
  rewrite zip_with_singletons.
  rewrite (map_map (fun c => [c]) (map _)).
  unfold ramp.
  rewrite (map_map _ (fun c => [c])).
  rewrite !length_map, zip_with_length, length_map, counts_length
    by (now rewrite !length_map, counts_length).
  reflexivity.
Qed.

Lemma ramp_cons (acc : Z) (c : fl) (col : list fl) (r : Z) :
  ramp acc (c :: col) r
  = fmul (fmul (Some (step_count acc c)) (neg1 c)) (of_int r)
    :: ramp (step_count acc c) col r.
Proof. reflexivity. Qed.

Lemma ramp_water_runs (r : Z) (col : list fl) :
  Forall encoded col ->
  forall pre,
    ramp (Z.of_nat (trail pre)) col r
    = map (fun i => if is_water (nth i col nan)
                    then of_int (Z.of_nat (trail (rev (firstn (S i) col) ++ pre)) * r)
                    else nan)
          (seq 0 (length col)).
Proof.
  induction 1 as [|c col Hc _ IH]; intros pre; [reflexivity|].
  rewrite ramp_cons. cbn [length seq map].
  rewrite <- seq_shift, map_map.
  assert (Hstep : step_count (Z.of_nat (trail pre)) c = Z.of_nat (trail (c :: pre))).
  { destruct Hc as [-> | ->]; unfold step_count, trail; cbn; lia. }
  rewrite Hstep, IH. f_equal.
  - destruct Hc as [-> | ->]; [|reflexivity].
    cbn [firstn rev app nth]. change (is_water WATER) with true. cbv iota.
    cbv [fmul lift2 neg1 WATER of_int]. f_equal. lia.
  - apply map_ext. intros i.
    change (nth (S i) (c :: col) nan) with (nth i col nan).
    change (firstn (S (S i)) (c :: col)) with (c :: firstn (S i) col).
    cbn [rev]. now rewrite <- app_assoc.
Qed.

Lemma ramp_column_fetch (col : list fl) (r : Z) :
  Forall encoded col -> ramp 0 col r = column_fetch col r.
Proof.
  intros H. unfold column_fetch, water_run.
  pose proof (ramp_water_runs r col H []) as E.
  change (Z.of_nat (trail [])) with 0 in E. rewrite E.
  apply map_ext. intros i. now rewrite app_nil_r.
Qed.

Lemma ramp_all_water (r : Z) (N : nat) (acc : Z) :
  ramp acc (repeat WATER N) r
  = map (fun k => of_int ((acc + Z.of_nat k) * r)) (seq 1 N).
Proof.
  revert acc. induction N as [|N IH]; intros acc; [reflexivity|].
  cbn [repeat]. rewrite ramp_cons. cbn [seq map].
  rewrite <- seq_shift, map_map. f_equal.
  - cbv [fmul lift2 neg1 WATER of_int step_count isnan]. f_equal. lia.
  - change (step_count acc WATER) with (acc + 1). rewrite IH.
    apply map_ext. intros k. unfold of_int. f_equal. lia.
Qed.

(** C1.  On a single column of WATER / NOT_WATER cells the kernel leaves
    [k * r] in every WATER cell, [k] being the number of consecutive WATER
    cells from the most recent NOT_WATER cell (or the top) down to and
    including that cell, and NaN in every NOT_WATER cell.  An all-water column
    of length [N] gives [r, 2r, ..., Nr], and [WATER, WATER, NOT_WATER, WATER]
    with resolution 1 gives [1, 2, NaN, 1]. *)
Theorem fetch_kernel_single_column :
  (forall (col : list fl) (r : Z),
      Forall encoded col ->
      _fetch_length_vect (column_array col) r = column_array (column_fetch col r)) /\
  (forall (N : nat) (r : Z),
      _fetch_length_vect (column_array (repeat WATER N)) r
      = column_array (map (fun k => of_int (Z.of_nat k * r)) (seq 1 N))) /\
  _fetch_length_vect (column_array [WATER; WATER; NOT_WATER; WATER]) 1
  = column_array [of_int 1; of_int 2; nan; of_int 1].
Proof.
  split; [|split].
  - intros col r H.
    now rewrite kernel_single_column, ramp_column_fetch.
  - intros N r.
    rewrite kernel_single_column.
    + now rewrite ramp_all_water.
    + apply Forall_forall. intros c Hc.
      apply repeat_spec in Hc. now left.
  - reflexivity.
Qed.

Lemma fetch_kernel_single_column_witness :
  _fetch_length_vect (column_array [NOT_WATER; WATER; WATER; NOT_WATER; WATER]) 3
  = column_array (column_fetch [NOT_WATER; WATER; WATER; NOT_WATER; WATER] 3).
Proof.
  apply (proj1 fetch_kernel_single_column).
  repeat constructor; (now left) || (now right).
Defined.

(** ** Columns of a 2-D array *)

Lemma zip_cons_Forall {A} (P : A -> Prop) (r : list A) (m : list (list A)) :
  Forall P r -> Forall (Forall P) m -> Forall (Forall P) (zip_cons r m).
Proof.
  intros Hr. revert m. induction Hr as [|x r Hx _ IH]; intros m Hm; cbn;
    [constructor|].
  destruct Hm as [|c m Hc Hm]; constructor; auto.
Qed.

Lemma transpose_Forall {A} (P : A -> Prop) (w : nat) (m : list (list A)) :
  Forall (Forall P) m -> Forall (Forall P) (transpose w m).
Proof.
  induction 1 as [|r m Hr _ IH]; cbn.
  - induction w; cbn; constructor; auto.
  - now apply zip_cons_Forall.
Qed.

Lemma Forall_concat {A} (P : A -> Prop) (m : list (list A)) :
  Forall (Forall P) m -> Forall P (concat m).
Proof.
  induction 1 as [|r m Hr _ IH]; cbn; [constructor|].
  apply Forall_app. now split.
Qed.

Lemma chunks_map {A B} (f : A -> B) (k n : nat) (l : list A) :
  chunks k n (map f l) = map (map f) (chunks k n l).
Proof.
  revert l. induction n as [|n IH]; intros l; cbn; [reflexivity|].
  now rewrite firstn_map, skipn_map, IH.
Qed.

Lemma zip_with_maps {A B C D} (g : B -> C -> D) (h : A -> B) (k : A -> C)
      (l : list A) :
  zip_with g (map h l) (map k l) = map (fun x => g (h x) (k x)) l.
Proof. induction l as [|x l IH]; cbn; [reflexivity | now rewrite IH]. Qed.

Lemma counts_app (acc : Z) (l1 l2 : list fl) :
  counts acc (l1 ++ l2) = counts acc l1 ++ counts (final_count acc l1) l2.
Proof.
  revert acc. induction l1 as [|c l1 IH]; intros acc; cbn; [reflexivity|].
  now rewrite IH.
Qed.

Lemma counts_after_seam (acc : Z) (c1 c2 : list fl) :
  length c1 = length c2 ->
  seam_closed c1 c2 ->
  counts (final_count acc c1) c2 = counts 0 c2.
Proof.
  intros Hlen [Hlast | Hhd].
  - destruct c1 as [|y c1].
    + destruct c2; [reflexivity | discriminate].
    + destruct (exists_last (l := y :: c1)) as [c1' [x E]]; [discriminate|].
      rewrite E in Hlast |- *.
      rewrite last_last in Hlast. subst x.
      unfold final_count. rewrite fold_left_app. reflexivity.
  - destruct c2 as [|x c2]; [reflexivity|].
    cbn in Hhd. subst x. reflexivity.
Qed.

Lemma counts_chunks (R : nat) (cols : list (list fl)) :
  forall (acc : Z) (n : nat),
    wf_rows n R cols ->
    seams_list cols ->
    chunks R n (counts acc (concat cols))
    = match cols with
      | [] => []
      | c :: cs => counts acc c :: map (counts 0) cs
      end.
Proof.
  induction cols as [|c cs IH]; intros acc n [Hlen Hrows] Hseams.
  - cbn in Hlen. now subst n.
  - destruct n as [|n]; [discriminate|].
    inversion Hrows as [|? ? Hc Hcs]; subst.
    cbn [concat]. rewrite counts_app. cbn [chunks].
    rewrite firstn_app, skipn_app, counts_length, Nat.sub_diag.
    rewrite firstn_all2, skipn_all2 by (rewrite counts_length; lia).
    cbn [firstn skipn app]. rewrite app_nil_r. f_equal.
    rewrite IH.
    + destruct cs as [|c2 cs']; [reflexivity|].
      cbn [map]. f_equal.
      apply counts_after_seam; [|apply Hseams].
      now inversion Hcs.
    + split; [cbn in Hlen; lia | assumption].
    + destruct cs as [|c2 cs']; [exact I | apply Hseams].
Qed.

Lemma seams_closed_list (cols : list (list fl)) :
  (forall j, (S j < length cols)%nat ->
             seam_closed (nth j cols []) (nth (S j) cols [])) ->
  seams_list cols.
Proof.
  induction cols as [|c1 cs IH]; intros H; [exact I|].
  destruct cs as [|c2 cs']; [exact I|].
  split.
  - apply (H 0%nat). cbn. lia.
  - apply IH. intros j Hj. apply (H (S j)). cbn in *. lia.
Qed.

Lemma kernel_rows (a : array2 fl) (r : Z) :
  rows (_fetch_length_vect a r)
  = map (map (fun x => fmul x (of_int r)))
        (zip_with (zip_with fmul)
           (transpose (nrows a)
              (chunks (nrows a) (ncols a)
                 (scan (concat (transpose (ncols a) (map (map neg1) (rows a)))))))
           (map (map neg1) (rows a))).
Proof. reflexivity. Qed.

(** The columns of the kernel's output, for an array whose seams are closed:
    each is the ramp of the matching input column. *)
Lemma kernel_columns (a : array2 fl) (r : Z) :
  wf a ->
  encoded_array a ->
  seams_closed a ->
  transpose (ncols a) (rows (_fetch_length_vect a r))
  = map (fun col => ramp 0 col r) (transpose (ncols a) (rows a)).
Proof.
  intros Hwf Henc Hseams.
  pose proof (transpose_wf _ _ _ Hwf) as Hcols.
  set (cols := transpose (ncols a) (rows a)) in *.
  assert (Hcenc : Forall (Forall encoded) cols)
    by (now apply transpose_Forall).
  rewrite kernel_rows.
  rewrite (transpose_map neg1 (ncols a) (rows a)). fold cols.
  rewrite <- concat_map.
  rewrite scan_counts by (apply ones_neg1; now apply Forall_concat).
  rewrite counts_neg1 by (now apply Forall_concat).
  rewrite chunks_map.
  rewrite (counts_chunks (nrows a) cols 0 (ncols a) Hcols).
  2:{ apply seams_closed_list. intros j Hj. apply Hseams.
      now rewrite <- (proj1 Hcols). }
  replace (match cols with
           | [] => []
           | c :: cs => counts 0 c :: map (counts 0) cs
           end) with (map (counts 0) cols) by (now destruct cols).
  assert (Hchunks : wf_rows (ncols a) (nrows a)
                      (map (map Some) (map (counts 0) cols))).
  { destruct Hcols as [Hl Hr]. split; [now rewrite !length_map|].
    rewrite map_map. apply Forall_map.
    eapply Forall_impl; [|exact Hr].
    intros col Hcol. cbn beta in *. now rewrite length_map, counts_length. }
  rewrite transpose_map.
  rewrite transpose_zip_with.
  2:{ rewrite length_map.
      etransitivity; [exact (proj1 (transpose_wf _ _ _ Hchunks))|].
      symmetry. exact (proj1 Hwf). }
  pose proof (transpose_involutive _ _ _ Hchunks) as Hinv.
  rewrite Hinv.
  rewrite (transpose_map neg1 (ncols a) (rows a)). fold cols.
  rewrite (map_map (counts 0) (map Some)).
  rewrite zip_with_maps, map_map.
  reflexivity.
Qed.

Lemma column_of_column_array {A} (l : list A) : column (column_array l) 0 = l.
Proof.
  unfold column, column_array. cbn [ncols rows].
  now rewrite transpose_single_column.
Qed.

Lemma column_encoded (a : array2 fl) (j : nat) :
  encoded_array a -> Forall encoded (column a j).
Proof.
  intros Henc. unfold column.
  destruct (nth_in_or_default j (transpose (ncols a) (rows a)) []) as [Hin | ->];
    [|constructor].
  revert Hin. apply Forall_forall. now apply transpose_Forall.
Qed.

(** C2.  The kernel at the failing input: in the one-row array
    [[WATER, WATER]] the count of the first column carries over into the
    second; the kernel leaves 2 in column 1, while the kernel applied to
    column 1 alone leaves 1, so the columns are not computed independently. *)
Lemma kernel_count_crosses_columns :
  let a := mk_array2 1 2 [[WATER; WATER]] in
  column (_fetch_length_vect a 1) 1 = [of_int 2] /\
  column (_fetch_length_vect (column_array (column a 1)) 1) 0 = [of_int 1].
Proof. split; reflexivity. Qed.

(** X18.  For every 2-D array of WATER / NOT_WATER cells in which every seam
    between neighbouring columns is closed (the bottom cell of the left
    column or the top cell of the right column is NOT_WATER) and for every
    resolution, column [j] of the kernel's output equals the kernel applied
    to column [j] alone. *)
Theorem kernel_columns_independent :
  forall (a : array2 fl) (r : Z),
    wf a ->
    encoded_array a ->
    seams_closed a ->
    forall j,
      column (_fetch_length_vect a r) j
      = column (_fetch_length_vect (column_array (column a j)) r) 0.
Proof.
  intros a r Hwf Henc Hseams j.
  rewrite kernel_single_column by now apply column_encoded.
  rewrite column_of_column_array.
  unfold column.
  change (ncols (_fetch_length_vect a r)) with (ncols a).
  rewrite kernel_columns by assumption.
  exact (map_nth (fun col => ramp 0 col r) (transpose (ncols a) (rows a)) [] j).
Qed.

Lemma kernel_columns_independent_witness :
  let a := mk_array2 3 2 [[WATER; NOT_WATER];
                          [WATER; WATER];
                          [NOT_WATER; WATER]] in
  column (_fetch_length_vect a 2) 1
  = column (_fetch_length_vect (column_array (column a 1)) 2) 0.
Proof.
  intro a. apply (kernel_columns_independent a 2).
  - split; [reflexivity | repeat constructor].
  - repeat constructor; (now left) || (now right).
  - intros j Hj. cbn in Hj.
    assert (j = 0%nat) as -> by lia. now left.
Defined.

(** ** The constructor *)

Lemma chunks_seq {A} (k n : nat) (l : list A) :
  chunks k n l = map (fun i => firstn k (skipn (i * k) l)) (seq 0 n).
Proof.
  revert l. induction n as [|n IH]; intros l; [reflexivity|].
  cbn [chunks seq map]. f_equal.
  rewrite IH, <- seq_shift, map_map.
  apply map_ext. intros i. rewrite skipn_skipn.
  now replace (S i * k)%nat with (i * k + k)%nat by lia.
Qed.

Lemma cell_at_as_array2 {A} (R C : nat) (cells : list A) (i j : nat) :
  (i < R)%nat -> (j < C)%nat ->
  cell_at (as_array2 R C cells) i j = nth_error cells (i * C + j).
Proof.
  intros Hi Hj. unfold cell_at, as_array2. cbn [rows].
  rewrite chunks_seq, nth_error_map, nth_error_seq.
  replace (i <? R)%nat with true by (symmetry; now apply Nat.ltb_lt).
  cbn [option_map Nat.add].
  rewrite nth_error_firstn.
  replace (j <? C)%nat with true by (symmetry; now apply Nat.ltb_lt).
  apply nth_error_skipn.
Qed.

(** C4.  For every 2-D classification grid and water label, construction
    succeeds with a water mask of the grid's shape whose cell is exactly -1
    where the classification equals the label and NaN everywhere else; the
    grid passed in is the same after the call. *)
Theorem water_mask_correct :
  forall (grid : ndarray Z) (label res : Z) (R C : nat),
    shape grid = [R; C] ->
    nd_wf grid ->
    exists wb,
      init grid label res = (Ok wb, grid) /\
      shape2 (landwater wb) = (R, C) /\
      forall i j, (i < R)%nat -> (j < C)%nat ->
        exists c,
          grid_at grid i j = Some c /\
          cell_at (landwater wb) i j
          = Some (if c =? label then WATER else NOT_WATER).
Proof.
  intros [sh cells] label res R C Hsh Hwf. cbn in Hsh. subst sh.
  unfold nd_wf in Hwf. cbn in Hwf.
  eexists. split; [reflexivity|]. split; [reflexivity|].
  intros i j Hi Hj. cbn [landwater].
  unfold grid_at. cbn [shape data nd_map].
  rewrite cell_at_as_array2 by assumption.
  rewrite nth_error_map.
  destruct (nth_error cells (i * C + j)) as [c|] eqn:E.
  - exists c. split; reflexivity.
  - apply nth_error_None in E. nia.
Qed.

Lemma water_mask_correct_witness :
  exists wb,
    init (mk_ndarray [2; 2]%nat [7; 3; 3; 7]) 7 10
    = (Ok wb, mk_ndarray [2; 2]%nat [7; 3; 3; 7]) /\
    shape2 (landwater wb) = (2, 2)%nat /\
    forall i j, (i < 2)%nat -> (j < 2)%nat ->
      exists c,
        grid_at (mk_ndarray [2; 2]%nat [7; 3; 3; 7]) i j = Some c /\
        cell_at (landwater wb) i j = Some (if c =? 7 then WATER else NOT_WATER).
Proof.
  apply (water_mask_correct (mk_ndarray [2; 2]%nat [7; 3; 3; 7]) 7 10 2 2).
  - reflexivity.
  - reflexivity.
Defined.

(** C5 (as stated, refuted).  Construction on a 2-by-2 grid with resolution 0
    and with resolution -1 returns an instance. *)
Lemma init_accepts_nonpositive_resolution :
  let grid := mk_ndarray [2; 2]%nat [1; 0; 1; 1] in
  let mask := mk_array2 2 2 [[WATER; NOT_WATER]; [WATER; WATER]] in
  fst (init grid 1 0) = Ok (mk_WaterBody 1 mask 0 0) /\
  fst (init grid 1 (-1)) = Ok (mk_WaterBody 1 mask (-1) 5).
Proof. split; reflexivity. Qed.

(** C5 (amended).  Construction fails (with the [ValueError] of unpacking
    the shape) whenever the classification grid is not 2-D.  A resolution of
    zero or below is not rejected: on a 2-D grid, construction with an
    integer resolution [res <= 0] whose squared diagonal
    [(res*ncol)^2 + (res*nrow)^2] fits a signed 64-bit integer returns an
    instance that stores that resolution. *)
Theorem init_checks_shape_only :
  (forall (grid : ndarray Z) (label res : Z),
      length (shape grid) <> 2%nat ->
      fst (init grid label res) = Raise ValueError) /\
  (forall (grid : ndarray Z) (label res : Z) (R C : nat),
      shape grid = [R; C] ->
      res <= 0 ->
      squared_diagonal res R C < 2 ^ 63 ->
      exists wb, fst (init grid label res) = Ok wb /\ resolution wb = res).
Proof.
  split.
  - intros [sh cells] label res H. cbn in *.
    destruct sh as [|r [|c [|d sh]]]; try reflexivity.
    now contradiction H.
  - intros [sh cells] label res R C H _ _. cbn in *. subst sh.
    eexists. split; reflexivity.
Qed.

Lemma init_checks_shape_only_witness :
  fst (init (mk_ndarray [4]%nat [1; 0; 1; 1]) 1 5) = Raise ValueError /\
  exists wb, fst (init (mk_ndarray [2; 2]%nat [1; 0; 1; 1]) 1 (-3)) = Ok wb /\
             resolution wb = -3.
Proof.
  split.
  - apply (proj1 init_checks_shape_only). cbn. lia.
  - apply (proj2 init_checks_shape_only
             (mk_ndarray [2; 2]%nat [1; 0; 1; 1]) 1 (-3) 2%nat 2%nat).
    + reflexivity.
    + lia.
    + reflexivity.
Defined.

(** ** Minor directions *)

Lemma range_length (n : Z) : length (range n) = Z.to_nat n.
Proof. unfold range. now rewrite length_map, length_seq. Qed.

Lemma range_nth_error (n : Z) (k : nat) :
  (k < Z.to_nat n)%nat -> nth_error (range n) k = Some (Z.of_nat k).
Proof.
  intros Hk. unfold range.
  rewrite nth_error_map, nth_error_seq.
  now replace (k <? Z.to_nat n)%nat with true
    by (symmetry; now apply Nat.ltb_lt).
Qed.

Lemma minor_seq_mid (minor_interval minor_directions : Z) :
  0 < minor_directions ->
  let minor_seq := map (fun i => i * minor_interval) (range minor_directions) in
  py_index minor_seq (Z.of_nat (length minor_seq) / 2)
  = Ok (minor_directions / 2 * minor_interval).
Proof.
  intros Hpos minor_seq. subst minor_seq.
  unfold py_index. rewrite length_map, range_length.
  rewrite Z2Nat.id by lia.
  assert (Hhalf : 0 <= minor_directions / 2 < minor_directions).
  { split; [apply Z.div_pos; lia | apply Z.div_lt; lia]. }
  assert (E1 : (minor_directions / 2 <? 0) = false) by (apply Z.ltb_ge; lia).
  assert (E2 : (minor_directions <=? minor_directions / 2) = false)
    by (apply Z.leb_gt; lia).
  rewrite !E1, E2. cbn [orb].
  rewrite nth_error_map, range_nth_error by lia.
  cbn [option_map]. now rewrite Z2Nat.id by lia.
Qed.

(** C8 (as stated, refuted).  For the float bearing 0.2 with
    [minor_directions = 7] and [minor_interval = 0.1] the code's cluster holds
    360.0 at index 1, which is outside [0, 360), where the claim's formula
    evaluated in the same float arithmetic gives 0.0: the code rounds
    [i*minor_interval - mid] before it adds [d], and [%] adds 360 to a tiny
    negative remainder.  For integer bearings, with [minor_directions = -1]
    and [minor_interval = 10] supplied, the code raises [IndexError] instead
    of producing the (empty) list of the formula. *)
Lemma minor_cluster_fails_as_stated :
  (exists cluster,
      FloatBearings.minor_dir_list
        [FloatBearings.two_tenths] FloatBearings.one_tenth 7 = Ok cluster /\
      nth_error cluster 1 = Some (FloatBearings.float_of_int 360) /\
      FloatBearings.mod_360
        (PrimFloat.sub
           (PrimFloat.add FloatBearings.two_tenths
              (PrimFloat.mul (FloatBearings.float_of_int 1)
                             FloatBearings.one_tenth))
           (PrimFloat.mul FloatBearings.one_tenth
                          (FloatBearings.float_of_int (7 / 2))))
      = PrimFloat.zero) /\
  minor_dir_list [0] 10 (-1) = Raise IndexError.
Proof.
  split; [|reflexivity].
  eexists. split; [vm_compute; reflexivity|].
  split; vm_compute; reflexivity.
Qed.

(** C8 (amended).  For integer bearings and an integer minor interval, with
    minor parameters supplied and [minor_directions >= 1], the
    cluster of every requested direction [d] is the list of
    [(d + i*minor_interval - minor_interval*(minor_directions // 2)) mod 360]
    for [i] in [0 .. minor_directions - 1], every angle lying in [0, 360);
    the clusters follow one another in request order.  For
    [minor_directions = 3] and [minor_interval = 10] the cluster of [d] is
    [(d - 10) mod 360, d mod 360, (d + 10) mod 360]. *)
Theorem minor_cluster_centered :
  (forall (directions : list Z) (minor_interval minor_directions : Z),
      0 < minor_directions ->
      exists all_directions,
        minor_dir_list directions minor_interval minor_directions
        = Ok all_directions /\
        all_directions
        = flat_map
            (fun d =>
               map (fun i => (d + i * minor_interval
                              - minor_interval * (minor_directions / 2)) mod 360)
                   (range minor_directions))
            directions /\
        Forall (fun angle => 0 <= angle < 360) all_directions) /\
  (forall d : Z,
      minor_dir_list [d] 10 3
      = Ok [(d - 10) mod 360; d mod 360; (d + 10) mod 360]).
Proof.
  split.
  - intros directions mi md Hpos.
    unfold minor_dir_list.
    rewrite (minor_seq_mid mi md Hpos). cbn [bind].
    eexists. split; [reflexivity|]. split.
    + induction directions as [|d ds IH]; [reflexivity|].
      cbn [flat_map]. rewrite IH. f_equal.
      rewrite map_map. apply map_ext. intros i. f_equal. lia.
    + apply Forall_forall. intros angle Hin.
      apply in_flat_map in Hin. destruct Hin as [d [_ Hin]].
      apply in_map_iff in Hin. destruct Hin as [i [<- _]].
      apply Z.mod_pos_bound. lia.
  - intros d. unfold minor_dir_list.
    change (range 3) with [0; 1; 2]. cbn [map length].
    change (py_index [0 * 10; 1 * 10; 2 * 10] (Z.of_nat 3 / 2))
      with (@Ok Z 10).
    cbn [bind flat_map map app].
    replace (d + (0 * 10 - 10)) with (d - 10) by lia.
    replace (d + (1 * 10 - 10)) with d by lia.
    replace (d + (2 * 10 - 10)) with (d + 10) by lia.
    reflexivity.
Qed.

Lemma minor_cluster_centered_witness :
  exists all_directions,
    minor_dir_list [0; 90] 5 4 = Ok all_directions /\
    all_directions
    = flat_map
        (fun d => map (fun i => (d + i * 5 - 5 * (4 / 2)) mod 360) (range 4))
        [0; 90] /\
    Forall (fun angle => 0 <= angle < 360) all_directions.
Proof.
  apply (proj1 minor_cluster_centered [0; 90] 5 4). lia.
Defined.

(** ** Calls of [fetch] *)

(** C6 (as stated, refuted).  On the 1-by-1 all-water grid with resolution 1,
    [fetch(0, minor_directions=3)] with [minor_interval] omitted raises
    nothing: it returns the one-band stack of the plain call.  (No exception
    depends on what the rotation returns; it is evaluated here for the
    rotation that leaves the array as it is.) *)
Lemma fetch_accepts_lone_minor_directions :
  (wb <- fst (init (mk_ndarray [1; 1]%nat [1]) 1 1) ;;
   fetch rotate_none mean_floor wb (Dscalar 0) (Some 3) None)
  = Ok (mk_array3 1 1 1 [[[of_int 1]]]).
Proof. reflexivity. Qed.

(** C6 (amended).  [fetch] validates nothing: with exactly one of
    [minor_directions] / [minor_interval] supplied, or with either of them
    zero, it raises no configuration error but ignores the minor parameters
    and does what the call without them does.  Only a negative
    [minor_directions] together with a non-zero [minor_interval] makes the
    call fail, with the [IndexError] of [minor_dir_list]. *)
Theorem fetch_ignores_incomplete_minor :
  forall rotate fmean (self : WaterBody) (directions : directions_arg),
    (forall md mi : option Z,
        md = None \/ mi = None \/ md = Some 0 \/ mi = Some 0 ->
        fetch rotate fmean self directions md mi
        = fetch rotate fmean self directions None None) /\
    (forall m i : Z,
        m < 0 -> i <> 0 ->
        fetch rotate fmean self directions (Some m) (Some i) = Raise IndexError).
Proof.
  intros rotate fmean self directions. split.
  - intros md mi H. unfold fetch.
    destruct mi as [i|], md as [m|]; try reflexivity.
    destruct H as [H | [H | [H | H]]]; try discriminate;
      injection H as ->; cbn [Z.eqb negb andb]; [|reflexivity].
    now rewrite andb_false_r.
  - intros m i Hm Hi. unfold fetch.
    replace (i =? 0) with false by (symmetry; now apply Z.eqb_neq).
    replace (m =? 0) with false by (symmetry; apply Z.eqb_neq; lia).
    cbn [negb andb]. unfold fetch_minor, minor_dir_list, range.
    replace (Z.to_nat m) with 0%nat by lia.
    reflexivity.
Qed.

Lemma fetch_ignores_incomplete_minor_witness :
  let wb := mk_WaterBody 1 (mk_array2 1 1 [[WATER]]) 1 1 in
  fetch rotate_none mean_floor wb (Dlist [0; 90]) (Some 3) None
  = fetch rotate_none mean_floor wb (Dlist [0; 90]) None None /\
  fetch rotate_none mean_floor wb (Dlist [0; 90]) (Some (-3)) (Some 5)
  = Raise IndexError.
Proof.
  intro wb. split.
  - apply (proj1 (fetch_ignores_incomplete_minor
                    rotate_none mean_floor wb (Dlist [0; 90]))).
    right. now left.
  - apply (proj2 (fetch_ignores_incomplete_minor
                    rotate_none mean_floor wb (Dlist [0; 90]))); lia.
Defined.

(** ** The shape of the fetch stack *)

Lemma ceil_sqrt_bounds (s : Z) :
  0 <= s -> 0 <= ceil_sqrt s /\ s <= ceil_sqrt s * ceil_sqrt s.
Proof.
  intros Hs. unfold ceil_sqrt.
  pose proof (Z.sqrt_spec s Hs) as [Hlo Hhi].
  pose proof (Z.sqrt_nonneg s) as Hq.
  destruct (Z.sqrt s * Z.sqrt s =? s) eqn:E.
  - apply Z.eqb_eq in E. lia.
  - unfold Z.succ in Hhi. lia.
Qed.

Lemma pad_of_bounds (res : Z) (R C : nat) :
  0 <= pad_of res R C /\
  (res <> 0 -> (R <> 0 \/ C <> 0)%nat -> 1 <= pad_of res R C).
Proof.
  unfold pad_of.
  set (x := res * Z.of_nat C). set (y := res * Z.of_nat R).
  assert (Hs : 0 <= x ^ 2 + y ^ 2) by nia.
  destruct (ceil_sqrt_bounds _ Hs) as [Hq Hsq].
  set (q := ceil_sqrt (x ^ 2 + y ^ 2)) in *.
  split.
  - nia.
  - intros Hres Hdim.
    assert (Hxy : x <> 0 \/ y <> 0) by (subst x y; nia).
    assert (Hsame : 0 <= x * y) by (subst x y; nia).
    nia.
Qed.

Lemma unpad_bounds (n : nat) (p : Z) :
  0 <= p -> (1 <= p \/ n = 0%nat) ->
  snd (py_slice_bounds (Z.to_nat p + n + Z.to_nat p) p (- p)) = n.
Proof.
  intros Hp [H1 | ->].
  - now rewrite py_slice_bounds_pad.
  - unfold py_slice_bounds, clamp_index. cbn [snd].
    destruct (p <? 0) eqn:E1; destruct (- p <? 0) eqn:E2;
      try apply Z.ltb_lt in E1; try apply Z.ltb_ge in E1;
      try apply Z.ltb_lt in E2; try apply Z.ltb_ge in E2; lia.
Qed.

Lemma kernel_shape (a : array2 fl) (r : Z) :
  shape2 (_fetch_length_vect a r) = shape2 a.
Proof. reflexivity. Qed.

Lemma same_shape_Forall {A} (r c : nat) (arrays : list (array2 A)) :
  Forall (fun b => shape2 b = (r, c)) arrays -> same_shape r c arrays = true.
Proof.
  intros H. unfold same_shape. apply forallb_forall. intros b Hb.
  pose proof (proj1 (Forall_forall _ _) H b Hb) as E.
  injection E as -> ->. now rewrite !Nat.eqb_refl.
Qed.

Lemma np_dstack_shape {A} (r c : nat) (arrays : list (array2 A)) :
  arrays <> [] ->
  Forall (fun b => shape2 b = (r, c)) arrays ->
  np_dstack arrays = Ok (mk_array3 r c (length arrays) (across r c arrays)).
Proof.
  intros Hne H. destruct arrays as [|a0 rest]; [contradiction|].
  unfold np_dstack.
  pose proof (Forall_inv H) as E. injection E as -> ->.
  now rewrite same_shape_Forall.
Qed.

Lemma py_slice_chunk {A} (l : list A) (m : Z) (k N : nat) :
  0 < m ->
  length l = (N * Z.to_nat m)%nat ->
  (k < N)%nat ->
  py_slice l (Z.of_nat k * m) (Z.of_nat k * m + m)
  = firstn (Z.to_nat m) (skipn (k * Z.to_nat m) l).
Proof.
  intros Hm Hlen Hk. unfold py_slice, py_slice_bounds, clamp_index.
  assert (Hle : Z.of_nat k * m + m <= Z.of_nat (length l)) by (rewrite Hlen; nia).
  replace (Z.of_nat k * m <? 0) with false by (symmetry; apply Z.ltb_ge; nia).
  replace (Z.of_nat k * m + m <? 0) with false
    by (symmetry; apply Z.ltb_ge; nia).
  rewrite !Z.min_l by nia.
  replace (Z.of_nat k * m + m - Z.of_nat k * m) with m by lia.
  now rewrite Z2Nat.inj_mul, Nat2Z.id by lia.
Qed.

Lemma divide_chunks_exact {A} (l : list A) (m : Z) (N : nat) :
  0 < m ->
  length l = (N * Z.to_nat m)%nat ->
  divide_chunks l m = Ok (chunks (Z.to_nat m) N l).
Proof.
  intros Hm Hlen. unfold divide_chunks, range_step.
  replace (m =? 0) with false by (symmetry; apply Z.eqb_neq; lia).
  replace (m <? 0) with false by (symmetry; apply Z.ltb_ge; lia).
  f_equal.
  replace (Z.of_nat (length l) + m - 1) with (Z.of_nat N * m + (m - 1))
    by (rewrite Hlen; nia).
  rewrite Z.div_add_l, Z.div_small, Z.add_0_r, Nat2Z.id by lia.
  rewrite map_map, chunks_seq.
  apply map_ext_in. intros k Hk. apply in_seq in Hk.
  apply (py_slice_chunk l m k N); [assumption | assumption | lia].
Qed.

Section FetchShape.

Variable rotate : array2 fl -> Z -> array2 fl.
Variable fmean : list fl -> fl.

(** [rotate] is called with [reshape=False]: the result has the shape of
    the argument. *)
Hypothesis rotate_shape : forall a angle, shape2 (rotate a angle) = shape2 a.

Lemma round_trip_shape (a : array2 fl) (angle r : Z) :
  shape2 (rotate (_fetch_length_vect (rotate a angle) r) (360 - angle))
  = shape2 a.
Proof. now rewrite rotate_shape, kernel_shape, rotate_shape. Qed.

Lemma round_trip_nrows (a : array2 fl) (angle r : Z) :
  nrows (rotate (_fetch_length_vect (rotate a angle) r) (360 - angle))
  = nrows a.
Proof. exact (f_equal fst (round_trip_shape a angle r)). Qed.

Lemma round_trip_ncols (a : array2 fl) (angle r : Z) :
  ncols (rotate (_fetch_length_vect (rotate a angle) r) (360 - angle))
  = ncols a.
Proof. exact (f_equal snd (round_trip_shape a angle r)). Qed.

Lemma fetch_single_dir_shape (self : WaterBody) (angle : Z) :
  0 <= estimated_pad self ->
  (1 <= estimated_pad self \/
   (nrows (landwater self) = 0 /\ ncols (landwater self) = 0)%nat) ->
  exists b,
    _fetch_single_dir rotate self angle = Ok b /\
    shape2 b = shape2 (landwater self).
Proof.
  intros Hp Hdim. unfold _fetch_single_dir, padding, np_pad. cbn [negb].
  replace (estimated_pad self <? 0) with false
    by (symmetry; apply Z.ltb_ge; lia).
  cbn [bind]. eexists. split; [reflexivity|].
  unfold slice2, shape2.
  change (nrows (mk_array2 ?r ?c ?m)) with r.
  change (ncols (mk_array2 ?r ?c ?m)) with c.
  rewrite round_trip_nrows, round_trip_ncols.
  change (nrows (mk_array2 ?r ?c ?m)) with r.
  change (ncols (mk_array2 ?r ?c ?m)) with c.
  f_equal; apply unpad_bounds; try assumption;
    destruct Hdim as [H | [H1 H2]]; auto.
Qed.

End FetchShape.

(** ** Well-formed arrays through the engine *)

Lemma wf_rows_map {A B} (f : A -> B) (r c : nat) (m : list (list A)) :
  wf_rows r c m -> wf_rows r c (map (map f) m).
Proof.
  intros [Hl Hr]. split; [now rewrite length_map|].
  apply Forall_map. eapply Forall_impl; [|exact Hr].
  intros row Hrow. cbn beta in *. now rewrite length_map.
Qed.

Lemma wf_rows_zip_with {A B C} (f : A -> B -> C) (r c : nat)
      (m1 : list (list A)) (m2 : list (list B)) :
  wf_rows r c m1 -> wf_rows r c m2 ->
  wf_rows r c (zip_with (zip_with f) m1 m2).
Proof.
  revert r m2. induction m1 as [|r1 m1 IH]; intros r m2 [Hl1 Hr1] [Hl2 Hr2].
  - cbn in *. subst r. destruct m2; [|discriminate]. split; [reflexivity|constructor].
  - destruct m2 as [|r2 m2]; [cbn in *; congruence|].
    destruct r as [|r]; [discriminate|].
    inversion Hr1; inversion Hr2; subst.
    destruct (IH r m2) as [Hl Hr]; [split | split |]; cbn in *; try lia; auto.
    split; [cbn; now rewrite Hl|].
    constructor; [|assumption].
    apply zip_with_length. congruence.
Qed.

Lemma cumsum_from_length (acc : fl) (l : list fl) :
  length (cumsum_from acc l) = length l.
Proof. revert acc. induction l; intros; cbn; auto. Qed.

Lemma bool_assign_length {A} (v : list A) (n : list bool) (vals : list A) :
  length (bool_assign v n vals) = length v.
Proof.
  revert n vals. induction v as [|x v IH]; intros [|b n] vals; cbn;
    try reflexivity.
  destruct b; [destruct vals|]; cbn; now rewrite IH.
Qed.

Lemma scan_length (v : list fl) : length (scan v) = length v.
Proof.
  unfold scan, cumsum. now rewrite cumsum_from_length, bool_assign_length.
Qed.

Lemma kernel_wf (a : array2 fl) (r : Z) :
  wf a -> wf (_fetch_length_vect a r).
Proof.
  intros Hwf. unfold wf.
  change (nrows (_fetch_length_vect a r)) with (nrows a).
  change (ncols (_fetch_length_vect a r)) with (ncols a).
  rewrite kernel_rows.
  pose proof (wf_rows_map neg1 _ _ _ Hwf) as Hw.
  apply wf_rows_map, wf_rows_zip_with; [|assumption].
  apply transpose_wf, chunks_wf.
  rewrite scan_length.
  apply concat_length_wf. now apply transpose_wf.
Qed.

Lemma np_pad_wf {A} (a padded : array2 A) (p : Z) (fill : A) :
  wf a -> np_pad a p fill = Ok padded -> wf padded.
Proof.
  intros [Hl Hr]. unfold np_pad.
  destruct (p <? 0); [discriminate|].
  intros E. injection E as <-. split; cbn [nrows ncols rows].
  - rewrite !length_app, !repeat_length, length_map. lia.
  - apply Forall_app; split; [|apply Forall_app; split].
    + apply Forall_forall. intros row Hin.
      apply repeat_spec in Hin. subst row. apply repeat_length.
    + apply Forall_map. eapply Forall_impl; [|exact Hr].
      intros row Hrow. cbn beta in *.
      rewrite !length_app, !repeat_length. lia.
    + apply Forall_forall. intros row Hin.
      apply repeat_spec in Hin. subst row. apply repeat_length.
Qed.

Lemma py_slice_length {A} (l : list A) (lo hi : Z) :
  length (py_slice l lo hi) = snd (py_slice_bounds (length l) lo hi).
Proof.
  unfold py_slice, py_slice_bounds, clamp_index. cbn [snd].
  rewrite length_firstn, length_skipn.
  destruct (lo <? 0) eqn:E1; destruct (hi <? 0) eqn:E2;
    try apply Z.ltb_lt in E1; try apply Z.ltb_ge in E1;
    try apply Z.ltb_lt in E2; try apply Z.ltb_ge in E2; lia.
Qed.

Lemma slice2_wf {A} (a : array2 A) (r0 r1 c0 c1 : Z) :
  wf a -> wf (slice2 a r0 r1 c0 c1).
Proof.
  intros [Hl Hr]. split; cbn [slice2 nrows ncols rows].
  - now rewrite length_map, py_slice_length, Hl.
  - apply Forall_map, Forall_forall. intros row Hin.
    rewrite py_slice_length.
    assert (Hrow : length row = ncols a).
    { apply (proj1 (Forall_forall _ _) Hr).
      unfold py_slice in Hin.
      destruct (py_slice_bounds (length (rows a)) r0 r1) as [lo len].
      eapply in_firstn_skipn. exact Hin. }
    now rewrite Hrow.
Qed.

Lemma as_array2_wf {A} (R C : nat) (cells : list A) :
  length cells = (R * C)%nat -> wf (as_array2 R C cells).
Proof. intros H. now apply chunks_wf. Qed.

(** ** Bands of a stack *)

Section Bands.
Context {A : Type}.

Lemma map_transpose_zip_cons (c : nat) (M : list (list A))
      (T : list (list (list A))) :
  map (transpose c) (zip_cons M T) = zip_with zip_cons M (map (transpose c) T).
Proof.
  revert T. induction M as [|row M IH]; intros [|t T]; cbn; try reflexivity.
  now rewrite IH.
Qed.

Lemma across_cons (r c : nat) (b : array2 A) (bs : list (array2 A)) :
  across r c (b :: bs) = zip_with zip_cons (rows b) (across r c bs).
Proof. unfold across. cbn [map transpose]. apply map_transpose_zip_cons. Qed.

Lemma across_nil (r c : nat) :
  across r c (@nil (array2 A)) = repeat (repeat [] c) r.
Proof.
  unfold across. cbn [map transpose].
  induction r as [|r IH]; cbn; [reflexivity | now rewrite IH].
Qed.

Lemma across_wf (r c : nat) (bs : list (array2 A)) :
  Forall (shaped r c) bs -> wf_rows r c (across r c bs).
Proof.
  induction 1 as [|b bs [[Hl Hr] Hs] _ [IHl IHr]].
  - rewrite across_nil. split; [apply repeat_length|].
    apply Forall_forall. intros x Hx. apply repeat_spec in Hx. subst x.
    apply repeat_length.
  - rewrite across_cons. injection Hs as Hs1 Hs2. rewrite Hs1, Hs2 in *.
    clear Hs1 Hs2. revert IHl IHr Hl Hr.
    generalize (across r c bs) as X. generalize (rows b) as M.
    clear. intros M. revert r.
    induction M as [|row M IH]; intros r X HXl HXr HMl HMr.
    + cbn in *. subst r. destruct X; [|discriminate].
      split; [reflexivity | constructor].
    + destruct X as [|xs X]; [cbn in *; congruence|].
      destruct r as [|r]; [discriminate|].
      inversion HXr; inversion HMr; subst.
      destruct (IH r X) as [Hl Hr]; cbn in *; try lia; auto.
      split; [cbn; now rewrite Hl|].
      constructor; [|assumption].
      rewrite zip_cons_length; congruence.
Qed.

Lemma zip_cons_heads (row : list A) (xs : list (list A)) :
  length row = length xs ->
  map (fun l => nth_error l 0) (zip_cons row xs) = map Some row.
Proof.
  revert xs. induction row as [|x row IH]; intros [|l xs] H; cbn in *;
    try discriminate; [reflexivity|].
  f_equal. apply IH. lia.
Qed.

Lemma zip_cons_tails (k : nat) (row : list A) (xs : list (list A)) :
  length row = length xs ->
  map (fun l => nth_error l (S k)) (zip_cons row xs)
  = map (fun l => nth_error l k) xs.
Proof.
  revert xs. induction row as [|x row IH]; intros [|l xs] H; cbn in *;
    try discriminate; [reflexivity|].
  f_equal. apply IH. lia.
Qed.

Lemma band_heads (r c : nat) (M : list (list A)) (X : list (list (list A))) :
  wf_rows r c M -> wf_rows r c X ->
  map (map (fun l => nth_error l 0)) (zip_with zip_cons M X)
  = map (map Some) M.
Proof.
  revert r X. induction M as [|row M IH]; intros r X [HMl HMr] [HXl HXr].
  - reflexivity.
  - destruct X as [|xs X]; [cbn in *; congruence|].
    destruct r as [|r]; [discriminate|].
    inversion HXr; inversion HMr; subst. cbn.
    rewrite zip_cons_heads by congruence. f_equal.
    apply (IH r); split; cbn in *; try lia; auto.
Qed.

Lemma band_tails (k r c : nat) (M : list (list A)) (X : list (list (list A))) :
  wf_rows r c M -> wf_rows r c X ->
  map (map (fun l => nth_error l (S k))) (zip_with zip_cons M X)
  = map (map (fun l => nth_error l k)) X.
Proof.
  revert r X. induction M as [|row M IH]; intros r X [HMl HMr] [HXl HXr].
  - cbn in *. subst r. now destruct X.
  - destruct X as [|xs X]; [cbn in *; congruence|].
    destruct r as [|r]; [discriminate|].
    inversion HXr; inversion HMr; subst. cbn [map zip_with].
    rewrite zip_cons_tails by congruence. f_equal.
    apply (IH r); split; cbn in *; try lia; auto.
Qed.

(** Band [k] of the stack of [bs] is the [k]-th array of [bs]. *)
Lemma band_across (r c : nat) (bs : list (array2 A)) :
  Forall (shaped r c) bs ->
  forall k b n,
    nth_error bs k = Some b ->
    band (mk_array3 r c n (across r c bs)) k = map (map Some) (rows b).
Proof.
  unfold band. cbn [cells3].
  induction 1 as [|b0 bs Hb0 Hbs IH]; intros k b n Hk.
  - now destruct k.
  - rewrite across_cons.
    assert (HM : wf_rows r c (rows b0)).
    { destruct Hb0 as [Hwf Hs]. injection Hs as <- <-. exact Hwf. }
    pose proof (across_wf r c bs Hbs) as HX.
    destruct k as [|k]; cbn in Hk.
    + injection Hk as <-. now apply (band_heads r c).
    + rewrite (band_tails k r c) by assumption.
      now apply (IH k b n).
Qed.

End Bands.

(** ** The fetch stack *)

Lemma for_each_map {A B} (f : A -> result B) (g : A -> B) (l : list A) :
  (forall x, In x l -> f x = Ok (g x)) -> for_each f l = Ok (map g l).
Proof.
  induction l as [|x l IH]; intros H; [reflexivity|].
  cbn. rewrite (H x) by now left. cbn.
  rewrite IH by (intros y Hy; apply H; now right). reflexivity.
Qed.

Lemma minor_active_some (md mi : option Z) (i m : Z) :
  minor_active md mi = Some (i, m) ->
  md = Some m /\ mi = Some i /\ i <> 0 /\ m <> 0.
Proof.
  unfold minor_active. destruct mi as [i'|], md as [m'|]; try discriminate.
  destruct (i' =? 0) eqn:Ei; destruct (m' =? 0) eqn:Em; try discriminate.
  intros E. injection E as <- <-.
  apply Z.eqb_neq in Ei, Em. auto.
Qed.

Section FetchStack.

Variable rotate : array2 fl -> Z -> array2 fl.
Variable fmean : list fl -> fl.

(** [rotate] is called with [reshape=False]: it returns a 2-D array of the
    shape of its argument. *)
Hypothesis rotate_shape : forall a angle, shape2 (rotate a angle) = shape2 a.
Hypothesis rotate_wf : forall a angle, wf a -> wf (rotate a angle).

Lemma fetch_dispatch (self : WaterBody) (directions : directions_arg)
      (md mi : option Z) :
  fetch rotate fmean self directions md mi
  = (dir_arrays <-
       match minor_active md mi with
       | Some (i, m) => fetch_minor rotate fmean self (requested directions) i m
       | None => fetch_plain rotate self (requested directions)
       end ;;
     np_dstack dir_arrays).
Proof.
  unfold fetch, minor_active, requested.
  destruct mi as [i|], md as [m|]; try reflexivity.
  now destruct (negb (i =? 0) && negb (m =? 0)).
Qed.

Lemma mean_axis0_shaped (r c : nat) (chunk : list (array2 fl)) :
  chunk <> [] ->
  Forall (shaped r c) chunk ->
  exists b, mean_axis0 fmean chunk = Ok b /\ shaped r c b.
Proof.
  intros Hne H. destruct chunk as [|a0 rest]; [contradiction|].
  unfold mean_axis0.
  destruct (Forall_inv H) as [_ E]. injection E as E1 E2.
  rewrite E1, E2.
  rewrite same_shape_Forall
    by (eapply Forall_impl; [|exact H]; now intros b [_ Hb]).
  eexists. split; [reflexivity|]. split; [|reflexivity].
  apply wf_rows_map. now apply across_wf.
Qed.

Lemma fetch_single_dir_shaped (self : WaterBody) (R C : nat) (angle : Z) :
  shaped R C (landwater self) ->
  0 <= estimated_pad self ->
  (1 <= estimated_pad self \/ (R = 0 /\ C = 0)%nat) ->
  exists b, _fetch_single_dir rotate self angle = Ok b /\ shaped R C b.
Proof.
  intros [Hwf Hs] Hp Hdim.
  injection Hs as HR HC.
  destruct (fetch_single_dir_shape rotate rotate_shape self angle Hp)
    as [b [Hb Hshape]].
  { destruct Hdim as [H | [H1 H2]]; [now left | right; lia]. }
  exists b. split; [assumption|]. split.
  - revert Hb. unfold _fetch_single_dir, padding. cbn [negb].
    destruct (np_pad (landwater self) (estimated_pad self) nan)
      as [padded|e] eqn:Epad; [|discriminate].
    cbn [bind]. intros E. injection E as <-.
    apply slice2_wf, rotate_wf, kernel_wf, rotate_wf.
    eapply np_pad_wf; eassumption.
  - rewrite Hshape. unfold shape2. now rewrite HR, HC.
Qed.

Lemma fetch_bands (self : WaterBody) (R C : nat)
      (directions : directions_arg) (md mi : option Z) :
  shaped R C (landwater self) ->
  0 <= estimated_pad self ->
  (1 <= estimated_pad self \/ (R = 0 /\ C = 0)%nat) ->
  (forall m, md = Some m -> 0 <= m) ->
  exists G,
    (forall d, band_for rotate fmean self md mi d = Ok (G d) /\
               shaped R C (G d)) /\
    fetch rotate fmean self directions md mi
    = np_dstack (map G (requested directions)).
Proof.
  intros Hland Hp Hdim Hmd.
  set (none := mk_array2 0 0 (@nil (list (option Z)))).
  set (B := fun d => unwrap none (_fetch_single_dir rotate self d)).
  assert (HB : forall d, _fetch_single_dir rotate self d = Ok (B d) /\
                         shaped R C (B d)).
  { intros d.
    destruct (fetch_single_dir_shaped self R C d Hland Hp Hdim) as [b [Hb Hs]].
    unfold B. rewrite Hb. now split. }
  rewrite fetch_dispatch. unfold band_for.
  destruct (minor_active md mi) as [[i m]|] eqn:E.
  - apply minor_active_some in E. destruct E as [Emd [_ [Hi Hm0]]].
    assert (Hm : 0 < m) by (specialize (Hmd m Emd); lia).
    set (cl := fun d =>
           map (fun off => (d + (off - m / 2 * i)) mod 360)
               (map (fun k => k * i) (range m))).
    assert (Hlist : forall ds, minor_dir_list ds i m = Ok (flat_map cl ds)).
    { intros ds. unfold minor_dir_list.
      now rewrite (minor_seq_mid i m Hm). }
    assert (Hcl : forall d, length (map B (cl d)) = Z.to_nat m).
    { intros d. unfold cl. now rewrite !length_map, range_length. }
    set (Mn := fun g => unwrap none (mean_axis0 fmean g)).
    assert (HG : forall d, mean_axis0 fmean (map B (cl d)) = Ok (Mn (map B (cl d)))
                           /\ shaped R C (Mn (map B (cl d)))).
    { intros d.
      destruct (mean_axis0_shaped R C (map B (cl d))) as [b [Hb Hs]].
      - intros Hnil. specialize (Hcl d). rewrite Hnil in Hcl. cbn in Hcl. lia.
      - apply Forall_map, Forall_forall. intros x _. apply HB.
      - unfold Mn. rewrite Hb. now split. }
    exists (fun d => Mn (map B (cl d))). split.
    + intros d. rewrite Hlist. cbn [bind flat_map]. rewrite app_nil_r.
      rewrite (for_each_map _ B) by (intros x _; apply HB).
      cbn [bind]. apply HG.
    + unfold fetch_minor. rewrite Hlist. cbn [bind].
      rewrite (for_each_map _ B) by (intros x _; apply HB).
      cbn [bind].
      rewrite flat_map_concat_map, concat_map, map_map.
      set (groups := map (fun d => map B (cl d)) (requested directions)).
      assert (Hgroups : wf_rows (length (requested directions)) (Z.to_nat m)
                                groups).
      { split; [unfold groups; now rewrite length_map|].
        unfold groups. apply Forall_map, Forall_forall. intros d _. apply Hcl. }
      rewrite (divide_chunks_exact _ m (length (requested directions)))
        by (try assumption; now apply concat_length_wf).
      cbn [bind]. rewrite chunks_concat by assumption.
      rewrite (for_each_map _ Mn).
      * cbn [bind]. unfold groups. now rewrite map_map.
      * intros g Hg. unfold groups in Hg. apply in_map_iff in Hg.
        destruct Hg as [d [<- _]]. apply HG.
  - exists B. split; [exact HB|].
    unfold fetch_plain.
    now rewrite (for_each_map _ B) by (intros x _; apply HB).
Qed.

Lemma fetch_gives_shape (grid : ndarray Z) (label res : Z) (R C : nat)
      (directions : directions_arg) (md mi : option Z) :
  shape grid = [R; C] ->
  nd_wf grid ->
  res <> 0 ->
  requested directions <> [] ->
  (forall m, md = Some m -> 0 <= m) ->
  fetch_gives rotate fmean grid label res directions md mi
              R C (length (requested directions)).
Proof.
  intros Hsh Hwf Hres Hne Hmd.
  destruct grid as [sh cells]. cbn in Hsh. subst sh.
  unfold nd_wf in Hwf. cbn in Hwf.
  set (wb := mk_WaterBody label
               (as_array2 R C
                  (map (fun c => if c =? label then of_int (-1) else nan) cells))
               res (pad_of res R C)).
  assert (Hland : shaped R C (landwater wb)).
  { split; [|reflexivity]. apply as_array2_wf. rewrite length_map. lia. }
  destruct (pad_of_bounds res R C) as [Hp0 Hp1].
  assert (Hdim : 1 <= estimated_pad wb \/ (R = 0 /\ C = 0)%nat).
  { destruct R as [|R]; [destruct C as [|C]|].
    - now right.
    - left. apply Hp1; [assumption | right; discriminate].
    - left. apply Hp1; [assumption | left; discriminate]. }
  destruct (fetch_bands wb R C directions md mi Hland Hp0 Hdim Hmd)
    as [G [HG Hfetch]].
  assert (Hbands : Forall (shaped R C) (map G (requested directions))).
  { apply Forall_map, Forall_forall. intros d _. apply HG. }
  exists wb. eexists. split; [reflexivity|]. split; [|split].
  - rewrite Hfetch. apply (np_dstack_shape R C).
    + destruct (requested directions); [contradiction | discriminate].
    + eapply Forall_impl; [|exact Hbands]. now intros b [_ Hb].
  - unfold shape3. cbn [dim0 dim1 dim2]. now rewrite length_map.
  - intros k d Hk. exists (G d). split; [apply HG|].
    apply (band_across R C _ Hbands).
    now apply map_nth_error.
Qed.

(** C9 (amended).  On the engine built from an R-by-C Classification Grid
    with a non-zero resolution, [fetch] with a non-empty request of [N]
    directions (and no negative [minor_directions]) returns a stack of shape
    [(R, C, N)] whose band [k] is the array of the [k]-th requested
    direction: its per-direction fetch array or, with minor directions, the
    mean over its cluster.  In particular [fetch([0, 90, 180])] returns
    shape [(R, C, 3)] and [fetch(0, minor_directions=3, minor_interval=5)]
    returns shape [(R, C, 1)]. *)
Theorem fetch_stack_shape :
  forall (grid : ndarray Z) (label res : Z) (R C : nat),
    shape grid = [R; C] ->
    nd_wf grid ->
    res <> 0 ->
    (forall (directions : directions_arg) (md mi : option Z),
        requested directions <> [] ->
        (forall m, md = Some m -> 0 <= m) ->
        fetch_gives rotate fmean grid label res directions md mi
                    R C (length (requested directions))) /\
    fetch_gives rotate fmean grid label res (Dlist [0; 90; 180]) None None
                R C 3 /\
    fetch_gives rotate fmean grid label res (Dscalar 0) (Some 3) (Some 5)
                R C 1.
Proof.
  intros grid label res R C Hsh Hwf Hres. split; [|split].
  - intros directions md mi Hne Hmd. now apply fetch_gives_shape.
  - apply (fetch_gives_shape grid label res R C (Dlist [0; 90; 180]) None None);
      try assumption; discriminate.
  - apply (fetch_gives_shape grid label res R C (Dscalar 0) (Some 3) (Some 5));
      try assumption; [discriminate|].
    intros m E. injection E as <-. lia.
Qed.

End FetchStack.

Lemma fetch_stack_shape_witness :
  fetch_gives rotate_none mean_floor (mk_ndarray [2; 3]%nat [1; 0; 1; 1; 1; 0]) 1 2
              (Dlist [0; 90; 180]) None None 2 3 3 /\
  fetch_gives rotate_none mean_floor (mk_ndarray [2; 3]%nat [1; 0; 1; 1; 1; 0]) 1 2
              (Dscalar 0) (Some 3) (Some 5) 2 3 1.
Proof.
  apply (fetch_stack_shape rotate_none mean_floor); try reflexivity.
  - intros a angle Ha. exact Ha.
  - lia.
Defined.

(** C9 (as stated, refuted).  On a 2-by-2 grid: with an empty list of
    directions [fetch] raises (the [ValueError] of [np.dstack]) instead of
    returning a stack of shape (2, 2, 0); on the engine built with resolution
    0 the padding margin is 0, the unpadding slice [0:-0] is empty, and
    [fetch(0)] returns a stack of shape (0, 0, 1); with
    [minor_directions = -3] and [minor_interval = 5] the call raises
    [IndexError].  (No exception and no shape
    depends on what the rotation returns; the calls are evaluated for the
    rotation that leaves the array as it is.) *)
Lemma fetch_shape_fails :
  let grid := mk_ndarray [2; 2]%nat [1; 0; 1; 1] in
  (wb <- fst (init grid 1 1) ;;
   fetch rotate_none mean_floor wb (Dlist []) None None)
  = Raise ValueError /\
  (wb <- fst (init grid 1 0) ;;
   stack <- fetch rotate_none mean_floor wb (Dscalar 0) None None ;;
   Ok (shape3 stack))
  = Ok (0, 0, 1)%nat /\
  (wb <- fst (init grid 1 1) ;;
   fetch rotate_none mean_floor wb (Dscalar 0) (Some (-3)) (Some 5))
  = Raise IndexError.
Proof. repeat split. Qed.

(** * Further properties of the engine *)

(** ** The kernel on a whole array *)

Lemma zip_with_app {A B C} (f : A -> B -> C) (r1 t1 : list A) (r2 t2 : list B) :
  length r1 = length r2 ->
  zip_with f (r1 ++ t1) (r2 ++ t2) = zip_with f r1 r2 ++ zip_with f t1 t2.
Proof.
  revert r2. induction r1 as [|x r1 IH]; intros [|y r2] H; cbn in *;
    try discriminate; [reflexivity|].
  f_equal. apply IH. lia.
Qed.

Lemma concat_zip_with {A B C} (f : A -> B -> C) (r c : nat)
      (m1 : list (list A)) (m2 : list (list B)) :
  wf_rows r c m1 -> wf_rows r c m2 ->
  concat (zip_with (zip_with f) m1 m2) = zip_with f (concat m1) (concat m2).
Proof.
  revert r m2. induction m1 as [|r1 m1 IH]; intros r m2 [Hl1 Hr1] [Hl2 Hr2].
  - reflexivity.
  - destruct m2 as [|r2 m2]; [cbn in *; congruence|].
    destruct r as [|r]; [discriminate|].
    inversion Hr1; inversion Hr2; subst. cbn [zip_with concat].
    rewrite (IH r m2) by (split; cbn in *; try lia; auto).
    symmetry. apply zip_with_app. congruence.
Qed.

Lemma concat_chunks {A} (k n : nat) (x : list A) :
  length x = (n * k)%nat -> concat (chunks k n x) = x.
Proof.
  revert x. induction n as [|n IH]; intros x Hx; cbn.
  - destruct x; [reflexivity | discriminate].
  - rewrite IH by (rewrite length_skipn; lia). apply firstn_skipn.
Qed.

Lemma kernel_flat (a : array2 fl) (r : Z) :
  wf a ->
  encoded_array a ->
  flatten_F (_fetch_length_vect a r) = ramp 0 (flatten_F a) r.
Proof.
  intros Hwf Henc. unfold flatten_F.
  change (ncols (_fetch_length_vect a r)) with (ncols a).
  pose proof (transpose_wf _ _ _ Hwf) as Hcols.
  set (cols := transpose (ncols a) (rows a)) in *.
  assert (Hcenc : Forall encoded (concat cols))
    by (apply Forall_concat; now apply transpose_Forall).
  rewrite kernel_rows.
  rewrite (transpose_map neg1 (ncols a) (rows a)). fold cols.
  rewrite <- concat_map.
  rewrite scan_counts by now apply ones_neg1.
  rewrite counts_neg1 by assumption.
  set (X := map Some (counts 0 (concat cols))).
  assert (HX : length X = (ncols a * nrows a)%nat).
  { unfold X. rewrite length_map, counts_length.
    now apply concat_length_wf. }
  pose proof (chunks_wf (nrows a) (ncols a) X HX) as Hchunks.
  rewrite transpose_map, transpose_zip_with.
  2:{ rewrite length_map.
      etransitivity; [exact (proj1 (transpose_wf _ _ _ Hchunks))|].
      symmetry. exact (proj1 Hwf). }
  rewrite (transpose_involutive _ _ _ Hchunks).
  rewrite (transpose_map neg1 (ncols a) (rows a)). fold cols.
  rewrite <- concat_map.
  rewrite (concat_zip_with fmul (ncols a) (nrows a))
    by (try assumption; now apply wf_rows_map).
  rewrite concat_chunks by assumption.
  now rewrite <- concat_map.
Qed.

(** X1.  On every well-formed array of WATER / NOT_WATER cells the kernel
    treats the column-major flattening as one long column: the flattened
    output is the run-length fetch of the flattened input. *)
Theorem kernel_is_column_major_scan :
  forall (a : array2 fl) (r : Z),
    wf a ->
    encoded_array a ->
    flatten_F (_fetch_length_vect a r) = column_fetch (flatten_F a) r.
Proof.
  intros a r Hwf Henc.
  rewrite kernel_flat by assumption.
  apply ramp_column_fetch.
  apply Forall_concat. now apply transpose_Forall.
Qed.

Lemma kernel_is_column_major_scan_witness :
  let a := mk_array2 2 2 [[WATER; WATER]; [WATER; NOT_WATER]] in
  flatten_F (_fetch_length_vect a 5) = column_fetch (flatten_F a) 5.
Proof.
  intro a. apply (kernel_is_column_major_scan a 5).
  - split; [reflexivity | repeat constructor].
  - repeat constructor; (now left) || (now right).
Defined.

(** X2.  The kernel returns a well-formed array of the shape of its argument,
    whatever the cells of the argument hold. *)
Theorem kernel_keeps_shape :
  forall (a : array2 fl) (r : Z) (R C : nat),
    shaped R C a -> shaped R C (_fetch_length_vect a r).
Proof.
  intros a r R C [Hwf Hs]. split; [now apply kernel_wf | exact Hs].
Qed.

Lemma kernel_keeps_shape_witness :
  shaped 2 2 (_fetch_length_vect (mk_array2 2 2 [[Some 4; nan]; [WATER; Some 0]]) 3).
Proof.
  apply kernel_keeps_shape.
  split; [split; [reflexivity | repeat constructor] | reflexivity].
Defined.

Lemma ramp_cells (r : Z) (col : list fl) :
  Forall encoded col ->
  forall acc, 0 <= acc ->
    Forall2 (fun c y =>
               if is_water c
               then exists k, 1 <= k <= acc + Z.of_nat (length col) /\
                              y = of_int (k * r)
               else y = nan)
            col (ramp acc col r).
Proof.
  induction 1 as [|c col Hc _ IH]; intros acc Hacc; [constructor|].
  rewrite ramp_cons. constructor.
  - destruct Hc as [-> | ->]; [|reflexivity].
    change (is_water WATER) with true. cbv iota.
    exists (acc + 1). split; [cbn [length]; lia|].
    cbv [fmul lift2 neg1 WATER of_int step_count isnan]. f_equal. lia.
  - assert (Hstep : 0 <= step_count acc c <= acc + 1).
    { destruct Hc as [-> | ->]; cbv [step_count isnan WATER NOT_WATER nan]; lia. }
    eapply Forall2_impl; [|apply IH; lia].
    intros c' y. cbn beta. destruct (is_water c'); [|auto].
    intros [k [Hk Hy]]. exists k. split; [cbn [length]; lia | exact Hy].
Qed.

(** X3.  In the kernel's output a NOT_WATER cell is NaN and a WATER cell
    holds [k * r] for a count [k] between 1 and the number of cells of the
    array (cells taken in column-major order). *)
Theorem kernel_cells :
  forall (a : array2 fl) (r : Z),
    wf a ->
    encoded_array a ->
    Forall2 (fun c y =>
               if is_water c
               then exists k, 1 <= k <= Z.of_nat (nrows a * ncols a) /\
                              y = of_int (k * r)
               else y = nan)
            (flatten_F a) (flatten_F (_fetch_length_vect a r)).
Proof.
  intros a r Hwf Henc.
  rewrite kernel_flat by assumption.
  assert (Hflat : Forall encoded (flatten_F a))
    by (apply Forall_concat; now apply transpose_Forall).
  assert (Hlen : length (flatten_F a) = (ncols a * nrows a)%nat)
    by (apply concat_length_wf; now apply transpose_wf).
  eapply Forall2_impl; [|apply (ramp_cells r _ Hflat 0); lia].
  intros c y. cbn beta. destruct (is_water c); [|auto].
  intros [k [Hk Hy]]. exists k. split; [rewrite Hlen in Hk; lia | exact Hy].
Qed.

Lemma kernel_cells_witness :
  let a := mk_array2 2 2 [[WATER; NOT_WATER]; [WATER; WATER]] in
  Forall2 (fun c y =>
             if is_water c
             then exists k, 1 <= k <= Z.of_nat (nrows a * ncols a) /\
                            y = of_int (k * 7)
             else y = nan)
          (flatten_F a) (flatten_F (_fetch_length_vect a 7)).
Proof.
  intro a. apply (kernel_cells a 7).
  - split; [reflexivity | repeat constructor].
  - repeat constructor; (now left) || (now right).
Defined.

(** X4.  The kernel is linear in the resolution: the fetch at resolution [r]
    is the fetch at resolution 1 with every cell multiplied by [r]. *)
Theorem kernel_scales_with_resolution :
  forall (a : array2 fl) (r : Z),
    _fetch_length_vect a r
    = amul_scalar (_fetch_length_vect a 1) (of_int r).
Proof.
  intros a r.
  change (_fetch_length_vect a r)
    with (mk_array2 (nrows a) (ncols a) (rows (_fetch_length_vect a r))).
  unfold amul_scalar, amap.
  change (nrows (_fetch_length_vect a 1)) with (nrows a).
  change (ncols (_fetch_length_vect a 1)) with (ncols a).
  f_equal. rewrite !kernel_rows.
  rewrite map_map. apply map_ext. intros row.
  rewrite map_map. apply map_ext. intros [z|]; [|reflexivity].
  cbv [fmul lift2 of_int]. f_equal. lia.
Qed.

(** ** Cells of padded and unpadded arrays *)

Lemma py_slice_bounds_crop (n : nat) (p : Z) :
  1 <= p ->
  snd (py_slice_bounds n p (- p)) = (n - 2 * Z.to_nat p)%nat.
Proof.
  intros Hp. unfold py_slice_bounds, clamp_index. cbn [snd].
  replace (p <? 0) with false by (symmetry; apply Z.ltb_ge; lia).
  replace (- p <? 0) with true by (symmetry; apply Z.ltb_lt; lia).
  lia.
Qed.

Lemma py_slice_crop {A} (l : list A) (p : Z) :
  1 <= p ->
  py_slice l p (- p)
  = firstn (length l - 2 * Z.to_nat p) (skipn (Z.to_nat p) l).
Proof.
  intros Hp. unfold py_slice.
  pose proof (py_slice_bounds_crop (length l) p Hp) as Hb.
  destruct (py_slice_bounds (length l) p (- p)) as [lo len] eqn:E.
  cbn [snd] in Hb. subst len.
  destruct (Nat.eq_dec (length l - 2 * Z.to_nat p) 0) as [-> | Hpos];
    [reflexivity|].
  replace lo with (Z.to_nat p); [reflexivity|].
  unfold py_slice_bounds, clamp_index in E.
  replace (p <? 0) with false in E by (symmetry; apply Z.ltb_ge; lia).
  injection E as <- _. lia.
Qed.

Lemma cell_at_rows {A} (a : array2 A) (i j : nat) (row : list A) :
  nth_error (rows a) i = Some row -> cell_at a i j = nth_error row j.
Proof. intros H. unfold cell_at. now rewrite H. Qed.

(** X5.  Padding by 0 returns the array as it is, but unpadding by 0 returns
    an array without cells (the slice [0:-0] is empty); so for
    [pad_width = 0] unpadding does not undo padding. *)
Theorem padding_by_zero :
  forall (A : Type) (a : array2 A) (fill any_fill : A),
    padding a 0 fill false = Ok a /\
    padding a 0 any_fill true = Ok (mk_array2 0 0 []) /\
    (padded <- padding a 0 fill false ;; padding padded 0 any_fill true)
    = Ok (mk_array2 0 0 []).
Proof.
  intros A [r c m] fill any_fill.
  assert (Hfwd : padding (mk_array2 r c m) 0 fill false = Ok (mk_array2 r c m)).
  { unfold padding, np_pad. cbn. rewrite !Nat.add_0_r. do 2 f_equal.
    rewrite app_nil_r. apply map_id_on, Forall_forall.
    intros row _. apply app_nil_r. }
  assert (Hb : forall n : nat, py_slice_bounds n 0 (- 0) = (0%nat, 0%nat)).
  { intros n. unfold py_slice_bounds, clamp_index. cbn [Z.opp Z.ltb Z.compare].
    rewrite Z.min_l by lia. reflexivity. }
  assert (Hinv : forall b : array2 A,
             padding b 0 any_fill true = Ok (mk_array2 0 0 [])).
  { intros b. unfold padding, slice2, py_slice. cbn [negb].
    now rewrite !Hb. }
  split; [exact Hfwd|]. split; [apply Hinv|].
  rewrite Hfwd. apply Hinv.
Qed.

(** X6.  Unpadding a well-formed R-by-C array by [pad_width = p >= 1] never
    raises; it returns a well-formed array of shape
    [(R - 2p, C - 2p)] (0 where the difference is negative) whose cell
    [(i, j)] is cell [(p + i, p + j)] of the argument. *)
Theorem unpad_crops :
  forall (A : Type) (a : array2 A) (pad_width : Z) (fill : A) (R C : nat),
    shaped R C a ->
    1 <= pad_width ->
    let p := Z.to_nat pad_width in
    exists out,
      padding a pad_width fill true = Ok out /\
      shaped (R - 2 * p) (C - 2 * p) out /\
      forall i j, (i < R - 2 * p)%nat -> (j < C - 2 * p)%nat ->
                  cell_at out i j = cell_at a (p + i) (p + j).
Proof.
  intros A [r c m] pw fill R C [[Hl Hr] Hs] Hp p.
  injection Hs as -> ->. cbn [nrows ncols rows] in *.
  eexists. split; [reflexivity|]. split; [split|].
  - apply slice2_wf. now split.
  - unfold shape2, slice2. cbn [nrows ncols].
    now rewrite !py_slice_bounds_crop.
  - intros i j Hi Hj. unfold cell_at at 1, slice2. cbn [rows].
    rewrite nth_error_map, py_slice_crop, Hl by assumption. fold p.
    rewrite nth_error_firstn.
    replace (i <? R - 2 * p)%nat with true by (symmetry; now apply Nat.ltb_lt).
    rewrite nth_error_skipn.
    destruct (nth_error m (p + i)) as [row|] eqn:E.
    + cbn [option_map].
      assert (Hrow : length row = C).
      { apply (proj1 (Forall_forall _ _) Hr). eapply nth_error_In. exact E. }
      rewrite py_slice_crop, Hrow by assumption. fold p.
      rewrite nth_error_firstn.
      replace (j <? C - 2 * p)%nat with true by (symmetry; now apply Nat.ltb_lt).
      rewrite nth_error_skipn. symmetry.
      now apply (cell_at_rows (mk_array2 R C m)).
    + apply nth_error_None in E. lia.
Qed.

Lemma unpad_crops_witness :
  exists out,
    padding (mk_array2 3 4 [[1; 2; 3; 4]; [5; 6; 7; 8]; [9; 10; 11; 12]]) 1 0 true
    = Ok out /\
    shaped (3 - 2 * Z.to_nat 1) (4 - 2 * Z.to_nat 1) out /\
    forall i j, (i < 3 - 2 * Z.to_nat 1)%nat -> (j < 4 - 2 * Z.to_nat 1)%nat ->
      cell_at out i j
      = cell_at (mk_array2 3 4 [[1; 2; 3; 4]; [5; 6; 7; 8]; [9; 10; 11; 12]])
                (Z.to_nat 1 + i) (Z.to_nat 1 + j).
Proof.
  apply (unpad_crops Z
           (mk_array2 3 4 [[1; 2; 3; 4]; [5; 6; 7; 8]; [9; 10; 11; 12]]) 1 0 3 4).
  - split; [split; [reflexivity | repeat constructor] | reflexivity].
  - lia.
Defined.

(** X7.  Padding a well-formed R-by-C array by [pad_width = p >= 0] returns a
    well-formed array of shape [(R + 2p, C + 2p)] that holds the argument in
    its interior (cell [(p + i, p + j)] is cell [(i, j)] of the argument) and
    the fill value in every cell of the border. *)
Theorem pad_cells :
  forall (A : Type) (a : array2 A) (pad_width : Z) (fill : A) (R C : nat),
    shaped R C a ->
    0 <= pad_width ->
    let p := Z.to_nat pad_width in
    exists padded,
      padding a pad_width fill false = Ok padded /\
      shaped (p + R + p) (p + C + p) padded /\
      (forall i j, (i < R)%nat -> (j < C)%nat ->
                   cell_at padded (p + i) (p + j) = cell_at a i j) /\
      (forall i j, (i < p + R + p)%nat -> (j < p + C + p)%nat ->
                   (i < p \/ p + R <= i \/ j < p \/ p + C <= j)%nat ->
                   cell_at padded i j = Some fill).
Proof.
  intros A [r c m] pw fill R C [[Hl Hr] Hs] Hp p.
  injection Hs as -> ->. cbn [nrows ncols rows] in *.
  destruct (padding (mk_array2 R C m) pw fill false) as [padded|e] eqn:Epad.
  2:{ unfold padding, np_pad in Epad. cbn [negb] in Epad.
      replace (pw <? 0) with false in Epad by (symmetry; apply Z.ltb_ge; lia).
      discriminate. }
  assert (Hwf : wf padded).
  { eapply (np_pad_wf (mk_array2 R C m)); [now split | exact Epad]. }
  unfold padding, np_pad in Epad. cbn [negb] in Epad.
  replace (pw <? 0) with false in Epad by (symmetry; apply Z.ltb_ge; lia).
  injection Epad as <-. cbn [nrows ncols rows] in *. fold p in Hwf |- *.
  eexists. split; [reflexivity|]. split; [split; [exact Hwf | reflexivity]|].
  set (c' := (p + C + p)%nat).
  set (border := repeat (repeat fill c') p).
  set (body := map (fun r => repeat fill p ++ r ++ repeat fill p) m).
  assert (Hborder : length border = p) by apply repeat_length.
  assert (Hbody : length body = R) by (unfold body; now rewrite length_map).
  assert (Hfill : forall i j, (i < p)%nat -> (j < c')%nat ->
            match nth_error border i with
            | Some row => nth_error row j
            | None => None
            end = Some fill).
  { intros i j Hi Hj. unfold border.
    rewrite nth_error_repeat by assumption. now apply nth_error_repeat. }
  split.
  - intros i j Hi Hj. unfold cell_at. cbn [rows]. fold c' border body.
    rewrite nth_error_app2 by lia.
    rewrite nth_error_app1 by lia.
    replace (p + i - length border)%nat with i by lia.
    unfold body. rewrite nth_error_map.
    destruct (nth_error m i) as [row|] eqn:E; [|apply nth_error_None in E; lia].
    cbn [option_map].
    assert (Hrow : length row = C).
    { apply (proj1 (Forall_forall _ _) Hr). eapply nth_error_In. exact E. }
    rewrite nth_error_app2 by (rewrite repeat_length; lia).
    rewrite nth_error_app1 by (rewrite repeat_length; lia).
    rewrite repeat_length. now replace (p + j - p)%nat with j by lia.
  - intros i j Hi Hj Hout. unfold cell_at. cbn [rows]. fold c' border body.
    destruct (Nat.lt_ge_cases i p) as [Hip | Hip].
    { rewrite nth_error_app1 by lia. now apply Hfill. }
    rewrite nth_error_app2 by lia. rewrite Hborder.
    destruct (Nat.lt_ge_cases (i - p) R) as [HiR | HiR].
    2:{ rewrite nth_error_app2 by lia. rewrite Hbody.
        apply Hfill; [lia | assumption]. }
    rewrite nth_error_app1 by lia.
    unfold body. rewrite nth_error_map.
    destruct (nth_error m (i - p)) as [row|] eqn:E;
      [|apply nth_error_None in E; lia].
    cbn [option_map].
    assert (Hrow : length row = C).
    { apply (proj1 (Forall_forall _ _) Hr). eapply nth_error_In. exact E. }
    destruct (Nat.lt_ge_cases j p) as [Hjp | Hjp].
    { rewrite nth_error_app1 by (rewrite repeat_length; lia).
      now apply nth_error_repeat. }
    rewrite nth_error_app2 by (rewrite repeat_length; lia).
    rewrite repeat_length.
    rewrite nth_error_app2 by lia.
    apply nth_error_repeat. unfold c' in Hj. lia.
Qed.

Lemma pad_cells_witness :
  exists padded,
    padding (mk_array2 1 2 [[5; 6]]) 2 0 false = Ok padded /\
    shaped (Z.to_nat 2 + 1 + Z.to_nat 2) (Z.to_nat 2 + 2 + Z.to_nat 2) padded /\
    (forall i j, (i < 1)%nat -> (j < 2)%nat ->
       cell_at padded (Z.to_nat 2 + i) (Z.to_nat 2 + j)
       = cell_at (mk_array2 1 2 [[5; 6]]) i j) /\
    (forall i j, (i < Z.to_nat 2 + 1 + Z.to_nat 2)%nat ->
                 (j < Z.to_nat 2 + 2 + Z.to_nat 2)%nat ->
       (i < Z.to_nat 2 \/ Z.to_nat 2 + 1 <= i \/
        j < Z.to_nat 2 \/ Z.to_nat 2 + 2 <= j)%nat ->
       cell_at padded i j = Some 0).
Proof.
  apply (pad_cells Z (mk_array2 1 2 [[5; 6]]) 2 0 1 2).
  - split; [split; [reflexivity | repeat constructor] | reflexivity].
  - lia.
Defined.

(** ** Land above and below a column *)

Lemma ramp_app (acc : Z) (l1 l2 : list fl) (r : Z) :
  ramp acc (l1 ++ l2) r = ramp acc l1 r ++ ramp (final_count acc l1) l2 r.
Proof.
  unfold ramp. rewrite counts_app, !map_app.
  rewrite zip_with_app by (now rewrite !length_map, counts_length).
  apply map_app.
Qed.

Lemma ramp_land (acc : Z) (p : nat) (r : Z) :
  ramp acc (repeat NOT_WATER p) r = repeat nan p.
Proof.
  revert acc. induction p as [|p IH]; intros acc; [reflexivity|].
  cbn [repeat]. rewrite ramp_cons, IH. reflexivity.
Qed.

Lemma final_count_land (p : nat) : final_count 0 (repeat NOT_WATER p) = 0.
Proof. induction p as [|p IH]; [reflexivity | exact IH]. Qed.

Lemma ramp_between_land (col : list fl) (p q : nat) (r : Z) :
  ramp 0 (repeat NOT_WATER p ++ col ++ repeat NOT_WATER q) r
  = repeat nan p ++ ramp 0 col r ++ repeat nan q.
Proof.
  rewrite ramp_app, ramp_land, final_count_land.
  now rewrite ramp_app, ramp_land.
Qed.

(** X8.  NOT_WATER cells above and below a stretch of a column leave the
    fetch of the stretch as it is and are NaN themselves; in particular a
    column of NOT_WATER cells only gives a column of NaN. *)
Theorem kernel_between_land :
  forall (col : list fl) (p q : nat) (r : Z),
    Forall encoded col ->
    _fetch_length_vect
      (column_array (repeat NOT_WATER p ++ col ++ repeat NOT_WATER q)) r
    = column_array (repeat nan p ++ column_fetch col r ++ repeat nan q).
Proof.
  intros col p q r Hcol.
  rewrite kernel_single_column.
  - now rewrite ramp_between_land, ramp_column_fetch.
  - repeat (apply Forall_app; split); try assumption;
      apply Forall_forall; intros c Hc; apply repeat_spec in Hc; now right.
Qed.

Lemma kernel_between_land_witness :
  _fetch_length_vect
    (column_array (repeat NOT_WATER 2 ++ [WATER; WATER] ++ repeat NOT_WATER 1)) 4
  = column_array (repeat nan 2 ++ column_fetch [WATER; WATER] 4 ++ repeat nan 1).
Proof.
  apply kernel_between_land. repeat constructor; now left.
Defined.

(** ** Columns and cells *)

Lemma zip_cons_nth {A} (row : list A) (T : list (list A)) (j : nat) (x : A) :
  length row = length T ->
  nth_error row j = Some x ->
  nth j (zip_cons row T) [] = x :: nth j T [].
Proof.
  revert T j. induction row as [|y row IH]; intros [|t T] [|j] Hlen Hx;
    cbn in *; try discriminate.
  - now injection Hx as ->.
  - apply IH; [lia | assumption].
Qed.

Lemma column_nth_error {A} (a : array2 A) (i j : nat) :
  wf a -> (j < ncols a)%nat ->
  nth_error (column a j) i = cell_at a i j.
Proof.
  destruct a as [r c m]. unfold wf, column, cell_at. cbn [nrows ncols rows].
  intros Hwf Hj. revert r i Hwf.
  induction m as [|row m IH]; intros r i [Hl Hr].
  - cbn [transpose]. rewrite nth_repeat. now rewrite !nth_error_nil.
  - destruct r as [|r]; [discriminate|].
    inversion Hr as [|? ? Hrow Hrest]; subst.
    assert (Hwf' : wf_rows r (length row) m) by (split; [cbn in Hl; lia | assumption]).
    destruct (nth_error row j) as [x|] eqn:Ex;
      [|apply nth_error_None in Ex; lia].
    cbn [transpose].
    rewrite (zip_cons_nth row _ j x);
      [| symmetry; apply (transpose_wf _ _ _ Hwf') | assumption].
    destruct i as [|i]; cbn [nth_error]; [now rewrite Ex|].
    now apply (IH r).
Qed.

Lemma column_length {A} (a : array2 A) (j : nat) :
  wf a -> (j < ncols a)%nat -> length (column a j) = nrows a.
Proof.
  intros Hwf Hj. unfold column.
  destruct (transpose_wf _ _ _ Hwf) as [Hl Hr].
  apply (proj1 (Forall_forall _ _) Hr). apply nth_In. now rewrite Hl.
Qed.

Lemma column_ext {A} (a : array2 A) (j : nat) (l : list A) :
  wf a -> (j < ncols a)%nat ->
  length l = nrows a ->
  (forall i, (i < nrows a)%nat -> cell_at a i j = nth_error l i) ->
  column a j = l.
Proof.
  intros Hwf Hj Hlen Hcells. apply nth_error_ext. intros i.
  destruct (Nat.lt_ge_cases i (nrows a)) as [Hi | Hi].
  - rewrite column_nth_error by assumption. now apply Hcells.
  - transitivity (@None A); [|symmetry]; apply nth_error_None.
    + now rewrite column_length.
    + now rewrite Hlen.
Qed.

(** ** Fetch along the columns: the scan at bearing 0 *)

Lemma shaped_dims {A} (r c : nat) (a : array2 A) :
  shaped r c a -> wf a /\ nrows a = r /\ ncols a = c.
Proof.
  intros [Hwf Hs]. split; [exact Hwf|].
  split; [exact (f_equal fst Hs) | exact (f_equal snd Hs)].
Qed.

Lemma chunks_Forall {A} (P : A -> Prop) (k n : nat) (l : list A) :
  Forall P l -> Forall (Forall P) (chunks k n l).
Proof.
  intros H. rewrite chunks_seq. apply Forall_map, Forall_forall.
  intros i _. apply Forall_forall. intros x Hx.
  apply (proj1 (Forall_forall _ _) H).
  eapply in_firstn_skipn. exact Hx.
Qed.

Lemma mask_encoded (label : Z) (R C : nat) (cells : list Z) :
  encoded_array
    (as_array2 R C
       (map (fun c => if c =? label then of_int (-1) else nan) cells)).
Proof.
  apply chunks_Forall, Forall_map, Forall_forall. intros c _.
  destruct (c =? label); [now left | now right].
Qed.

Lemma np_pad_encoded (a padded : array2 fl) (p : Z) :
  encoded_array a -> np_pad a p nan = Ok padded -> encoded_array padded.
Proof.
  unfold encoded_array, np_pad. intros Ha.
  destruct (p <? 0); [discriminate|].
  intros E. injection E as <-. cbn [rows].
  assert (Hnan : forall n, Forall encoded (repeat nan n)).
  { intros n. apply Forall_forall. intros c Hc.
    apply repeat_spec in Hc. now right. }
  assert (Hborder : forall n k, Forall (Forall encoded) (repeat (repeat nan n) k)).
  { intros n k. apply Forall_forall. intros row Hrow.
    apply repeat_spec in Hrow. subst row. apply Hnan. }
  apply Forall_app; split; [apply Hborder|].
  apply Forall_app; split; [|apply Hborder].
  apply Forall_map. eapply Forall_impl; [|exact Ha].
  intros row Hrow. cbn beta.
  apply Forall_app; split; [apply Hnan|].
  apply Forall_app; split; [assumption | apply Hnan].
Qed.

Lemma kernel_column (a : array2 fl) (r : Z) (j : nat) :
  wf a -> encoded_array a -> seams_closed a ->
  column (_fetch_length_vect a r) j = ramp 0 (column a j) r.
Proof.
  intros Hwf Henc Hseams. unfold column.
  change (ncols (_fetch_length_vect a r)) with (ncols a).
  rewrite kernel_columns by assumption.
  exact (map_nth (fun col => ramp 0 col r) (transpose (ncols a) (rows a)) [] j).
Qed.

Lemma hd_nth_error {A} (d x : A) (l : list A) :
  nth_error l 0 = Some x -> hd d l = x.
Proof. destruct l; cbn; [discriminate | now intros [= ->]]. Qed.

(** Pad with NaN, scan, unpad: every column of the result is the fetch of
    the matching column of the mask. *)
Lemma padded_scan_columns (mask : array2 fl) (R C : nat) (pw res : Z)
      (fill : fl) :
  shaped R C mask ->
  encoded_array mask ->
  1 <= pw ->
  exists b,
    (padded <- padding mask pw nan false ;;
     padding (_fetch_length_vect padded res) pw fill true) = Ok b /\
    shaped R C b /\
    forall j, (j < C)%nat ->
              column b j = column_fetch (column mask j) res.
Proof.
  intros Hmask Henc Hpw.
  destruct (shaped_dims _ _ _ Hmask) as [Hmwf [HmR HmC]].
  pose proof (pad_cells _ mask pw nan R C Hmask) as Hpad.
  cbv zeta in Hpad. specialize (Hpad ltac:(lia)).
  set (p := Z.to_nat pw) in *.
  destruct Hpad as [P [HP [HPs [Hin Hborder]]]].
  destruct (shaped_dims _ _ _ HPs) as [HPwf [HPR HPC]].
  assert (HPenc : encoded_array P).
  { apply (np_pad_encoded mask P pw Henc). exact HP. }
  assert (Hp : (1 <= p)%nat) by (unfold p; lia).
  assert (HPseams : seams_closed P).
  { intros j Hj. right. apply hd_nth_error.
    rewrite column_nth_error by (try assumption; lia).
    apply Hborder; lia. }
  set (K := _fetch_length_vect P res).
  assert (HK : shaped (p + R + p) (p + C + p) K)
    by (now apply kernel_keeps_shape).
  pose proof (unpad_crops _ K pw fill _ _ HK Hpw) as Hun.
  cbv zeta in Hun. fold p in Hun.
  replace (p + R + p - 2 * p)%nat with R in Hun by lia.
  replace (p + C + p - 2 * p)%nat with C in Hun by lia.
  destruct Hun as [b [Hb [Hbs Hcells]]].
  destruct (shaped_dims _ _ _ Hbs) as [Hbwf [HbR HbC]].
  destruct (shaped_dims _ _ _ HK) as [HKwf [HKR HKC]].
  exists b. rewrite HP. cbn [bind]. fold K.
  split; [exact Hb|]. split; [exact Hbs|].
  intros j Hj.
  assert (Hcolj : length (column mask j) = R).
  { rewrite column_length by (try assumption; lia). exact HmR. }
  assert (Hcenc : Forall encoded (column mask j)) by (now apply column_encoded).
  assert (HcolP : column P (p + j)
                  = repeat NOT_WATER p ++ column mask j ++ repeat NOT_WATER p).
  { apply column_ext; [assumption | lia | |].
    - rewrite !length_app, !repeat_length. lia.
    - rewrite HPR. intros i Hi.
      destruct (Nat.lt_ge_cases i p) as [Hip | Hip].
      + rewrite Hborder by lia.
        rewrite nth_error_app1 by (rewrite repeat_length; lia).
        symmetry. now apply nth_error_repeat.
      + rewrite nth_error_app2 by (rewrite repeat_length; lia).
        rewrite repeat_length.
        destruct (Nat.lt_ge_cases (i - p) R) as [HiR | HiR].
        * rewrite nth_error_app1 by lia.
          rewrite column_nth_error by (try assumption; lia).
          replace i with (p + (i - p))%nat at 1 by lia.
          now apply Hin.
        * rewrite Hborder by lia.
          rewrite nth_error_app2 by lia.
          symmetry. apply nth_error_repeat. lia. }
  rewrite <- ramp_column_fetch by assumption.
  apply column_ext; [assumption | lia | |].
  - unfold ramp.
    rewrite length_map, zip_with_length, length_map, counts_length
      by (now rewrite !length_map, counts_length).
    lia.
  - rewrite HbR. intros i Hi.
    rewrite Hcells by assumption.
    rewrite <- column_nth_error by (try assumption; lia).
    unfold K. rewrite kernel_column by assumption.
    rewrite HcolP, ramp_between_land.
    rewrite nth_error_app2 by (rewrite repeat_length; lia).
    rewrite repeat_length.
    replace (p + i - p)%nat with i by lia.
    apply nth_error_app1.
    unfold ramp.
    rewrite length_map, zip_with_length, length_map, counts_length
      by (now rewrite !length_map, counts_length).
    lia.
Qed.

Section FetchAtZero.

Variable rotate : array2 fl -> Z -> array2 fl.

(** A rotation by 0 and by 360 degrees returns the array as it is. *)
Hypothesis rotate_0 : forall a, rotate a 0 = a.
Hypothesis rotate_360 : forall a, rotate a 360 = a.

(** X9.  When the rotation by 0 and by 360 degrees leaves an array as it is,
    the single-direction fetch at bearing 0 on the engine built from a 2-D
    grid with non-zero resolution returns an array of the grid's shape in
    which every column is the run-length fetch of the same column of the
    water mask: the NaN padding keeps a count from running over from one
    column into the next. *)
Theorem fetch_at_zero_is_columnwise :
  forall (grid : ndarray Z) (label res : Z) (R C : nat),
    shape grid = [R; C] ->
    nd_wf grid ->
    res <> 0 ->
    exists wb b,
      fst (init grid label res) = Ok wb /\
      _fetch_single_dir rotate wb 0 = Ok b /\
      shaped R C b /\
      forall j, (j < C)%nat ->
                column b j = column_fetch (column (landwater wb) j) res.
Proof.
  intros [sh cells] label res R C Hsh Hwf Hres. cbn in Hsh. subst sh.
  unfold nd_wf in Hwf. cbn in Hwf.
  set (mask := as_array2 R C
                 (map (fun c => if c =? label then of_int (-1) else nan) cells)).
  set (wb := mk_WaterBody label mask res (pad_of res R C)).
  assert (Hmask : shaped R C mask).
  { split; [|reflexivity]. apply as_array2_wf. rewrite length_map. lia. }
  assert (Henc : encoded_array mask) by apply mask_encoded.
  destruct (pad_of_bounds res R C) as [Hp0 Hp1].
  exists wb. destruct (Z_le_gt_dec 1 (pad_of res R C)) as [Hpad | Hpad].
  - destruct (padded_scan_columns mask R C (pad_of res R C) res
                (of_int (- res)) Hmask Henc Hpad) as [b [Hb [Hbs Hcols]]].
    exists b. split; [reflexivity|]. split; [|split; assumption].
    rewrite <- Hb. unfold _fetch_single_dir.
    cbn [landwater estimated_pad resolution wb].
    destruct (padding mask (pad_of res R C) nan false) as [P|e];
      [|reflexivity].
    cbn [bind]. change (360 - 0) with 360.
    now rewrite rotate_0, rotate_360.
  - assert (HRC : R = 0%nat /\ C = 0%nat).
    { destruct R as [|R]; [destruct C as [|C]; [now split|]|].
      - specialize (Hp1 Hres ltac:(right; discriminate)). lia.
      - specialize (Hp1 Hres ltac:(left; discriminate)). lia. }
    destruct HRC as [-> ->].
    assert (H0 : pad_of res 0 0 = 0) by lia.
    exists (mk_array2 0 0 []). split; [reflexivity|]. split; [|split].
    + unfold _fetch_single_dir.
      cbn [landwater estimated_pad resolution wb]. rewrite H0.
      rewrite (proj1 (padding_by_zero _ mask nan nan)). cbn [bind].
      apply (padding_by_zero _ _ nan (of_int (- res))).
    + split; [split; [reflexivity | constructor] | reflexivity].
    + intros j Hj. lia.
Qed.

End FetchAtZero.

Lemma fetch_at_zero_is_columnwise_witness :
  exists wb b,
    fst (init (mk_ndarray [2; 2]%nat [1; 1; 1; 0]) 1 3) = Ok wb /\
    _fetch_single_dir rotate_none wb 0 = Ok b /\
    shaped 2 2 b /\
    forall j, (j < 2)%nat ->
              column b j = column_fetch (column (landwater wb) j) 3.
Proof.
  apply (fetch_at_zero_is_columnwise rotate_none); try reflexivity. lia.
Defined.

(** X10.  On an engine built with resolution 0 the padding margin is 0, and
    every single-direction fetch, for every angle and whatever the rotation
    returns, is an array without cells: unpadding by 0 crops everything. *)
Theorem zero_resolution_fetch_is_empty :
  forall rotate (grid : ndarray Z) (label : Z) (R C : nat),
    shape grid = [R; C] ->
    exists wb,
      fst (init grid label 0) = Ok wb /\
      estimated_pad wb = 0 /\
      forall angle,
        _fetch_single_dir rotate wb angle = Ok (mk_array2 0 0 []).
Proof.
  intros rotate [sh cells] label R C Hsh. cbn in Hsh. subst sh.
  eexists. split; [reflexivity|]. split; [reflexivity|].
  intros angle. unfold _fetch_single_dir.
  cbn [landwater estimated_pad resolution].
  change (ceil_sqrt ((0 * Z.of_nat C) ^ 2 + (0 * Z.of_nat R) ^ 2)
          - Z.min (0 * Z.of_nat C) (0 * Z.of_nat R)) with 0.
  match goal with
  | |- context [padding ?m 0 nan false] =>
      rewrite (proj1 (padding_by_zero _ m nan nan))
  end.
  cbn [bind]. apply (padding_by_zero _ _ nan).
Qed.

Lemma zero_resolution_fetch_is_empty_witness :
  exists wb,
    fst (init (mk_ndarray [2; 2]%nat [1; 1; 1; 0]) 1 0) = Ok wb /\
    estimated_pad wb = 0 /\
    forall angle,
      _fetch_single_dir rotate_none wb angle = Ok (mk_array2 0 0 []).
Proof.
  apply (zero_resolution_fetch_is_empty rotate_none
           (mk_ndarray [2; 2]%nat [1; 1; 1; 0]) 1 2 2).
  reflexivity.
Defined.

Lemma ceil_sqrt_least (s t : Z) :
  0 <= s -> 0 <= t -> s <= t * t -> ceil_sqrt s <= t.
Proof.
  intros Hs Ht Hst. unfold ceil_sqrt.
  pose proof (Z.sqrt_spec s Hs) as [Hlo Hhi].
  pose proof (Z.sqrt_nonneg s) as Hq.
  destruct (Z.sqrt s * Z.sqrt s =? s) eqn:E.
  - apply Z.eqb_eq in E. nia.
  - apply Z.eqb_neq in E. nia.
Qed.

(** X11.  For an integer resolution with [xlen^2 + ylen^2 < 2^50], where
    [xlen = resolution * ncol] and [ylen = resolution * nrow], the padding
    margin the constructor stores is the least integer [p] with
    [p + min(xlen, ylen) >= sqrt(xlen^2 + ylen^2)]; it is never negative, and
    at least 1 when the resolution is not 0 and the grid has a cell row or
    column. *)
Theorem estimated_pad_is_least_margin :
  forall (grid : ndarray Z) (label res : Z) (R C : nat),
    shape grid = [R; C] ->
    squared_diagonal res R C < 2 ^ 50 ->
    exists wb,
      fst (init grid label res) = Ok wb /\
      let xlen := res * Z.of_nat C in
      let ylen := res * Z.of_nat R in
      let low := Z.min xlen ylen in
      let p := estimated_pad wb in
      0 <= p /\
      0 <= p + low /\
      xlen ^ 2 + ylen ^ 2 <= (p + low) ^ 2 /\
      (forall q, 0 <= q + low -> xlen ^ 2 + ylen ^ 2 <= (q + low) ^ 2 -> p <= q) /\
      (res <> 0 -> (R <> 0 \/ C <> 0)%nat -> 1 <= p).
Proof.
  intros [sh cells] label res R C Hsh _. cbn in Hsh. subst sh.
  eexists. split; [reflexivity|]. cbn [estimated_pad]. cbv zeta.
  set (x := res * Z.of_nat C). set (y := res * Z.of_nat R).
  assert (Hs : 0 <= x ^ 2 + y ^ 2) by nia.
  destruct (ceil_sqrt_bounds _ Hs) as [Hq Hsq].
  destruct (pad_of_bounds res R C) as [Hp0 Hp1].
  unfold pad_of in Hp0, Hp1. fold x y in Hp0, Hp1.
  split; [exact Hp0|]. split; [lia|]. split; [|split; [|exact Hp1]].
  - replace (ceil_sqrt (x ^ 2 + y ^ 2) - Z.min x y + Z.min x y)
      with (ceil_sqrt (x ^ 2 + y ^ 2)) by lia.
    nia.
  - intros q Hq0 Hq2.
    pose proof (ceil_sqrt_least (x ^ 2 + y ^ 2) (q + Z.min x y) Hs Hq0) as Hl.
    specialize (Hl ltac:(nia)). lia.
Qed.

Lemma estimated_pad_is_least_margin_witness :
  exists wb,
    fst (init (mk_ndarray [3; 4]%nat [1; 1; 1; 1; 0; 0; 0; 0; 1; 1; 1; 1]) 1 2)
    = Ok wb /\
    let xlen := 2 * Z.of_nat 4 in
    let ylen := 2 * Z.of_nat 3 in
    let low := Z.min xlen ylen in
    let p := estimated_pad wb in
    0 <= p /\
    0 <= p + low /\
    xlen ^ 2 + ylen ^ 2 <= (p + low) ^ 2 /\
    (forall q, 0 <= q + low -> xlen ^ 2 + ylen ^ 2 <= (q + low) ^ 2 -> p <= q) /\
    (2 <> 0 -> (3 <> 0 \/ 4 <> 0)%nat -> 1 <= p).
Proof.
  apply (estimated_pad_is_least_margin
           (mk_ndarray [3; 4]%nat [1; 1; 1; 1; 0; 0; 0; 0; 1; 1; 1; 1]) 1 2 3 4).
  - reflexivity.
  - reflexivity.
Defined.

(** ** Minor directions and chunks: edge cases *)

(** X12.  [minor_dir_list] raises [IndexError] exactly when
    [minor_directions <= 0] (the median of an empty offset list is looked
    up), whatever the directions, an empty list included; for
    [minor_directions >= 1] it returns
    [len(directions) * minor_directions] angles. *)
Theorem minor_dir_list_fails_iff_nonpositive :
  forall (directions : list Z) (minor_interval minor_directions : Z),
    (minor_directions <= 0 ->
     minor_dir_list directions minor_interval minor_directions
     = Raise IndexError) /\
    (0 < minor_directions ->
     exists all_directions,
       minor_dir_list directions minor_interval minor_directions
       = Ok all_directions /\
       length all_directions
       = (length directions * Z.to_nat minor_directions)%nat).
Proof.
  intros directions mi md. split.
  - intros Hmd. unfold minor_dir_list, range.
    replace (Z.to_nat md) with 0%nat by lia. reflexivity.
  - intros Hmd. unfold minor_dir_list.
    rewrite (minor_seq_mid mi md Hmd). cbn [bind].
    eexists. split; [reflexivity|].
    induction directions as [|d ds IH]; [reflexivity|].
    cbn [flat_map length]. rewrite length_app, IH.
    rewrite !length_map, range_length. lia.
Qed.

Lemma minor_dir_list_fails_iff_nonpositive_witness :
  minor_dir_list [] 5 0 = Raise IndexError /\
  exists all_directions,
    minor_dir_list [10; 20] 5 3 = Ok all_directions /\
    length all_directions = (length [10; 20] * Z.to_nat 3)%nat.
Proof.
  split.
  - apply (proj1 (minor_dir_list_fails_iff_nonpositive [] 5 0)). lia.
  - apply (proj2 (minor_dir_list_fails_iff_nonpositive [10; 20] 5 3)). lia.
Defined.

(** X13.  For an integer bearing [d] and an integer minor interval, the
    angle at index [i] of the cluster of [d] is
    [(d + (i - minor_directions // 2) * minor_interval) mod 360]; so [d]
    itself (mod 360) sits at index [minor_directions // 2], and with
    [minor_directions = 1] the cluster is just [d mod 360] whatever the
    interval. *)
Theorem minor_cluster_members :
  forall (d minor_interval minor_directions : Z),
    0 < minor_directions ->
    exists cluster,
      minor_dir_list [d] minor_interval minor_directions = Ok cluster /\
      (forall i, 0 <= i < minor_directions ->
         nth_error cluster (Z.to_nat i)
         = Some ((d + (i - minor_directions / 2) * minor_interval) mod 360)) /\
      nth_error cluster (Z.to_nat (minor_directions / 2)) = Some (d mod 360) /\
      (minor_directions = 1 -> cluster = [d mod 360]).
Proof.
  intros d mi md Hmd. unfold minor_dir_list.
  rewrite (minor_seq_mid mi md Hmd). cbn [bind flat_map].
  rewrite app_nil_r. eexists. split; [reflexivity|].
  assert (Hnth : forall i, 0 <= i < md ->
            nth_error
              (map (fun i0 => (d + (i0 - md / 2 * mi)) mod 360)
                   (map (fun i0 => i0 * mi) (range md)))
              (Z.to_nat i)
            = Some ((d + (i - md / 2) * mi) mod 360)).
  { intros i Hi. rewrite !nth_error_map, range_nth_error by lia.
    cbn [option_map]. rewrite Z2Nat.id by lia. do 2 f_equal. lia. }
  split; [exact Hnth|]. split.
  - rewrite Hnth.
    + do 2 f_equal. lia.
    + split; [apply Z.div_pos; lia | apply Z.div_lt; lia].
  - intros ->. change (range 1) with [0]. cbn [map].
    change (1 / 2) with 0.
    replace (d + (0 * mi - 0 * mi)) with d by lia. reflexivity.
Qed.

Lemma minor_cluster_members_witness :
  exists cluster,
    minor_dir_list [350] 10 4 = Ok cluster /\
    (forall i, 0 <= i < 4 ->
       nth_error cluster (Z.to_nat i)
       = Some ((350 + (i - 4 / 2) * 10) mod 360)) /\
    nth_error cluster (Z.to_nat (4 / 2)) = Some (350 mod 360) /\
    (4 = 1 -> cluster = [350 mod 360]).
Proof.
  apply (minor_cluster_members 350 10 4). lia.
Defined.

Lemma py_slice_window {A} (l : list A) (lo w : Z) :
  0 <= lo -> 0 <= w ->
  py_slice l lo (lo + w) = firstn (Z.to_nat w) (skipn (Z.to_nat lo) l).
Proof.
  intros Hlo Hw. unfold py_slice, py_slice_bounds, clamp_index.
  replace (lo <? 0) with false by (symmetry; apply Z.ltb_ge; lia).
  replace (lo + w <? 0) with false by (symmetry; apply Z.ltb_ge; lia).
  destruct (Z.le_gt_cases lo (Z.of_nat (length l))) as [Hin | Hout].
  - rewrite (Z.min_l lo) by lia.
    destruct (Z.le_gt_cases (lo + w) (Z.of_nat (length l))) as [Hin2 | Hout2].
    + rewrite Z.min_l by lia. do 2 f_equal. lia.
    + rewrite Z.min_r by lia.
      rewrite !firstn_all2; [reflexivity | |]; rewrite length_skipn; lia.
  - rewrite !Z.min_r by lia.
    rewrite !skipn_all2 by lia. now rewrite !firstn_nil.
Qed.

Lemma firstn_add {A} (a b : nat) (l : list A) :
  firstn (a + b) l = firstn a l ++ firstn b (skipn a l).
Proof.
  revert l. induction a as [|a IH]; intros [|x l]; cbn;
    try reflexivity.
  - now rewrite firstn_nil.
  - now rewrite IH.
Qed.

Lemma concat_windows {A} (n K : nat) (l : list A) :
  concat (map (fun k => firstn n (skipn (k * n) l)) (seq 0 K))
  = firstn (K * n) l.
Proof.
  induction K as [|K IH]; [reflexivity|].
  rewrite seq_S, map_app, concat_app, IH. cbn [map concat Nat.add].
  rewrite app_nil_r.
  replace (S K * n)%nat with (K * n + n)%nat by lia.
  now rewrite firstn_add.
Qed.

(** X14.  [divide_chunks(l, n)] for [n >= 1] cuts [l] into
    [ceil(len(l) / n)] consecutive chunks: laid end to end they give [l]
    back, and each holds between 1 and [n] elements.  With [n = 0] the
    generator raises ([range] with step 0) and with [n < 0] it yields
    nothing. *)
Theorem divide_chunks_partitions :
  forall (A : Type) (l : list A) (n : Z),
    (0 < n ->
     exists cs,
       divide_chunks l n = Ok cs /\
       concat cs = l /\
       Forall (fun c => (1 <= length c)%nat /\ Z.of_nat (length c) <= n) cs /\
       Z.of_nat (length cs) = (Z.of_nat (length l) + n - 1) / n) /\
    (n = 0 -> divide_chunks l n = Raise ValueError) /\
    (n < 0 -> divide_chunks l n = Ok []).
Proof.
  intros A l n. split; [|split].
  - intros Hn. unfold divide_chunks, range_step.
    replace (n =? 0) with false by (symmetry; apply Z.eqb_neq; lia).
    replace (n <? 0) with false by (symmetry; apply Z.ltb_ge; lia).
    set (len := Z.of_nat (length l)).
    set (K := (len + n - 1) / n).
    assert (HK0 : 0 <= K) by (apply Z.div_pos; lia).
    assert (HKlo : n * K <= len + n - 1) by (apply Z.mul_div_le; lia).
    assert (HKhi : len + n - 1 < n * Z.succ K)
      by (apply Z.mul_succ_div_gt; lia).
    eexists. split; [reflexivity|].
    rewrite map_map.
    assert (Hcs : map (fun k => py_slice l (Z.of_nat k * n) (Z.of_nat k * n + n))
                      (seq 0 (Z.to_nat K))
                  = map (fun k => firstn (Z.to_nat n) (skipn (k * Z.to_nat n) l))
                        (seq 0 (Z.to_nat K))).
    { apply map_ext. intros k. rewrite py_slice_window by lia.
      now rewrite Z2Nat.inj_mul, Nat2Z.id by lia. }
    rewrite Hcs. split; [|split].
    + rewrite concat_windows. apply firstn_all2. nia.
    + apply Forall_map, Forall_forall. intros k Hk. apply in_seq in Hk.
      rewrite length_firstn, length_skipn. nia.
    + rewrite length_map, length_seq. lia.
  - intros ->. reflexivity.
  - intros Hn. unfold divide_chunks.
    replace (n =? 0) with false by (symmetry; apply Z.eqb_neq; lia).
    now replace (n <? 0) with true by (symmetry; apply Z.ltb_lt; lia).
Qed.

Lemma divide_chunks_partitions_witness :
  exists cs,
    divide_chunks [1; 2; 3; 4; 5; 6; 7] 3 = Ok cs /\
    concat cs = [1; 2; 3; 4; 5; 6; 7] /\
    Forall (fun c => (1 <= length c)%nat /\ Z.of_nat (length c) <= 3) cs /\
    Z.of_nat (length cs) = (Z.of_nat (length [1; 2; 3; 4; 5; 6; 7]) + 3 - 1) / 3.
Proof.
  apply (proj1 (divide_chunks_partitions Z [1; 2; 3; 4; 5; 6; 7] 3)). lia.
Defined.

(** X15.  A call of [fetch] with an empty list of directions never returns a
    stack, whatever the engine: it raises the [ValueError] of [np.dstack],
    or, when the minor parameters are in force with a negative
    [minor_directions], the [IndexError] of [minor_dir_list] before that. *)
Theorem fetch_nothing_requested_raises :
  forall rotate fmean (self : WaterBody) (md mi : option Z),
    fetch rotate fmean self (Dlist []) md mi
    = match minor_active md mi with
      | Some (_, m) => if m <? 0 then Raise IndexError else Raise ValueError
      | None => Raise ValueError
      end.
Proof.
  intros rotate fmean self md mi. unfold fetch, minor_active.
  destruct mi as [i|], md as [m|]; try reflexivity.
  destruct (negb (i =? 0) && negb (m =? 0)) eqn:E; [|reflexivity].
  apply andb_prop in E. destruct E as [_ Em].
  apply negb_true_iff, Z.eqb_neq in Em.
  unfold fetch_minor.
  destruct (Z.ltb_spec m 0) as [Hneg | Hpos].
  - destruct (minor_dir_list_fails_iff_nonpositive [] i m) as [Hfail _].
    now rewrite Hfail by lia.
  - unfold minor_dir_list.
    rewrite (minor_seq_mid i m) by lia.
    cbn [bind flat_map for_each]. unfold divide_chunks, range_step.
    replace (m =? 0) with false by (symmetry; apply Z.eqb_neq; lia).
    replace (m <? 0) with false by (symmetry; apply Z.ltb_ge; lia).
    cbn [length Z.of_nat]. rewrite Z.div_small by lia. reflexivity.
Qed.

(** ** What a column inherits from the columns before it *)

Lemma ramp_length (acc : Z) (col : list fl) (r : Z) :
  length (ramp acc col r) = length col.
Proof.
  unfold ramp.
  rewrite length_map, zip_with_length, length_map, counts_length
    by (now rewrite !length_map, counts_length).
  reflexivity.
Qed.

Lemma firstn_snoc {A} (l : list A) (j : nat) (x : A) :
  nth_error l j = Some x -> firstn (S j) l = firstn j l ++ [x].
Proof.
  revert j. induction l as [|y l IH]; intros [|j] H; cbn in *;
    try discriminate.
  - now injection H as ->.
  - f_equal. now apply IH.
Qed.

Lemma firstn_wf {A} (r c j : nat) (m : list (list A)) :
  wf_rows r c m -> (j <= r)%nat -> wf_rows j c (firstn j m).
Proof.
  intros [Hl Hr] Hj. split.
  - rewrite length_firstn. lia.
  - apply Forall_forall. intros row Hin.
    apply (proj1 (Forall_forall _ _) Hr).
    rewrite <- (firstn_skipn j m). apply in_or_app. now left.
Qed.

Lemma kernel_column_carry (a : array2 fl) (r : Z) (j : nat) :
  wf a ->
  encoded_array a ->
  (j < ncols a)%nat ->
  column (_fetch_length_vect a r) j
  = ramp (final_count 0 (concat (firstn j (transpose (ncols a) (rows a)))))
         (column a j) r.
Proof.
  intros Hwf Henc Hj.
  pose proof (transpose_wf _ _ _ Hwf) as Hcols.
  pose proof (transpose_wf _ _ _ (kernel_wf a r Hwf)) as HcolsK.
  pose proof (kernel_flat a r Hwf Henc) as Hflat.
  unfold flatten_F, column in *.
  change (ncols (_fetch_length_vect a r)) with (ncols a) in *.
  change (nrows (_fetch_length_vect a r)) with (nrows a) in *.
  set (cols := transpose (ncols a) (rows a)) in *.
  set (colsK := transpose (ncols a) (rows (_fetch_length_vect a r))) in *.
  assert (Hcol : nth_error cols j = Some (nth j cols [])).
  { apply nth_error_nth'. now rewrite (proj1 Hcols). }
  set (col := nth j cols []) in *.
  assert (Hlen : length col = nrows a).
  { apply (proj1 (Forall_forall _ _) (proj2 Hcols)).
    eapply nth_error_In. exact Hcol. }
  assert (HA : length (concat (firstn j cols)) = (j * nrows a)%nat).
  { apply concat_length_wf. apply (firstn_wf (ncols a)); [assumption | lia]. }
  assert (Hsplit : concat cols
                   = concat (firstn j cols) ++ col ++ concat (skipn (S j) cols)).
  { rewrite <- (firstn_skipn_middle j cols Hcol) at 1.
    now rewrite concat_app. }
  rewrite <- (chunks_concat (nrows a) (ncols a) colsK HcolsK).
  rewrite Hflat, chunks_seq, Hsplit.
  rewrite !ramp_app.
  set (f := final_count 0 (concat (firstn j cols))).
  erewrite (nth_error_nth _ j).
  2:{ rewrite nth_error_map, nth_error_seq.
      replace (j <? ncols a)%nat with true by (symmetry; now apply Nat.ltb_lt).
      reflexivity. }
  cbn [Nat.add].
  rewrite skipn_app, ramp_length, HA, Nat.sub_diag.
  rewrite skipn_all2 by (rewrite ramp_length; lia).
  cbn [skipn app].
  rewrite firstn_app, ramp_length, Hlen, Nat.sub_diag.
  rewrite firstn_all2 by (rewrite ramp_length; lia).
  cbn [firstn]. apply app_nil_r.
Qed.

Lemma final_count_nonneg (l : list fl) (acc : Z) :
  0 <= acc -> 0 <= final_count acc l.
Proof.
  revert acc. induction l as [|c l IH]; intros acc Hacc; [exact Hacc|].
  apply IH. unfold step_count. destruct (isnan c); lia.
Qed.

Lemma columns_upto_split (a : array2 fl) (j : nat) :
  wf a -> (j < ncols a)%nat ->
  columns_upto a j
  = concat (firstn j (transpose (ncols a) (rows a))) ++ column a j.
Proof.
  intros Hwf Hj. unfold columns_upto, column.
  pose proof (transpose_wf _ _ _ Hwf) as Hcols.
  rewrite (firstn_snoc _ j (nth j (transpose (ncols a) (rows a)) [])).
  - rewrite concat_app. cbn [concat]. now rewrite app_nil_r.
  - apply nth_error_nth'. now rewrite (proj1 Hcols).
Qed.

(** X16.  Without any condition on the seams, column [j] of the kernel's
    output is the tail of the run-length fetch of the columns [0 .. j] laid
    end to end: a column continues the count with which the columns before it
    end. *)
Theorem kernel_column_continues_count :
  forall (a : array2 fl) (r : Z) (j : nat),
    wf a ->
    encoded_array a ->
    (j < ncols a)%nat ->
    column (_fetch_length_vect a r) j
    = skipn (j * nrows a) (column_fetch (columns_upto a j) r).
Proof.
  intros a r j Hwf Henc Hj.
  pose proof (transpose_wf _ _ _ Hwf) as Hcols.
  assert (Hall : Forall (Forall encoded) (transpose (ncols a) (rows a)))
    by (now apply transpose_Forall).
  assert (HA : length (concat (firstn j (transpose (ncols a) (rows a))))
               = (j * nrows a)%nat).
  { apply concat_length_wf. apply (firstn_wf (ncols a)); [assumption | lia]. }
  rewrite kernel_column_carry by assumption.
  rewrite columns_upto_split by assumption.
  rewrite <- ramp_column_fetch.
  - rewrite ramp_app, skipn_app, ramp_length, HA, Nat.sub_diag.
    rewrite skipn_all2 by (rewrite ramp_length; lia).
    reflexivity.
  - apply Forall_app. split; [|now apply column_encoded].
    apply Forall_concat, Forall_forall. intros col Hin.
    apply (proj1 (Forall_forall _ _) Hall).
    rewrite <- (firstn_skipn j (transpose (ncols a) (rows a))).
    apply in_or_app. now left.
Qed.

Lemma kernel_column_continues_count_witness :
  let a := mk_array2 2 2 [[WATER; WATER]; [WATER; NOT_WATER]] in
  column (_fetch_length_vect a 1) 1
  = skipn (1 * nrows a) (column_fetch (columns_upto a 1) 1).
Proof.
  intro a. apply (kernel_column_continues_count a 1 1).
  - split; [reflexivity | repeat constructor].
  - repeat constructor; (now left) || (now right).
  - cbn. lia.
Defined.

(** X17.  The seam condition is needed: where the bottom cell of a column
    and the top cell of the next column are both WATER, the kernel (at a
    non-zero resolution) gives the next column a fetch different from the one
    it computes for that column alone. *)
Theorem open_seam_links_columns :
  forall (a : array2 fl) (r : Z) (j : nat),
    wf a ->
    encoded_array a ->
    r <> 0 ->
    (S j < ncols a)%nat ->
    last (column a j) nan = WATER ->
    hd nan (column a (S j)) = WATER ->
    column (_fetch_length_vect a r) (S j)
    <> column (_fetch_length_vect (column_array (column a (S j))) r) 0.
Proof.
  intros a r j Hwf Henc Hr Hj Hlast Hhd.
  rewrite kernel_single_column by now apply column_encoded.
  rewrite column_of_column_array.
  rewrite kernel_column_carry by assumption.
  pose proof (transpose_wf _ _ _ Hwf) as Hcols.
  rewrite (firstn_snoc _ j (column a j))
    by (apply nth_error_nth'; rewrite (proj1 Hcols); lia).
  rewrite concat_app. cbn [concat]. rewrite app_nil_r.
  set (A0 := concat (firstn j (transpose (ncols a) (rows a)))).
  destruct (column a (S j)) as [|c next]; [discriminate|].
  cbn [hd] in Hhd. subst c.
  destruct (column a j) as [|y col]; [discriminate|].
  destruct (exists_last (l := y :: col)) as [body [x E]]; [discriminate|].
  rewrite E in Hlast |- *. rewrite last_last in Hlast. subst x.
  assert (Hf : 1 <= final_count 0 (A0 ++ body ++ [WATER])).
  { unfold final_count. rewrite app_assoc, fold_left_app. cbn [fold_left].
    change (step_count ?acc WATER) with (acc + 1).
    pose proof (final_count_nonneg (A0 ++ body) 0 ltac:(lia)) as H0.
    unfold final_count in H0. lia. }
  set (f := final_count 0 (A0 ++ body ++ [WATER])) in *.
  rewrite !ramp_cons. intros Heq. injection Heq as Hhead _.
  cbv [fmul lift2 neg1 WATER of_int step_count isnan] in Hhead.
  destruct r; [now contradiction Hr | nia | nia].
Qed.

Lemma open_seam_links_columns_witness :
  let a := mk_array2 2 2 [[NOT_WATER; WATER]; [WATER; WATER]] in
  column (_fetch_length_vect a 3) 1
  <> column (_fetch_length_vect (column_array (column a 1)) 3) 0.
Proof.
  intro a. apply (open_seam_links_columns a 3 0).
  - split; [reflexivity | repeat constructor].
  - repeat constructor; (now left) || (now right).
  - lia.
  - cbn. lia.
  - reflexivity.
  - reflexivity.
Defined.
